(** * The virtual file system of thor-os: mount dispatch and listings

    A shallow embedding of [kernel/src/vfs/vfs.cpp].  The mount registry
    [mount_point_list], the scheduler's handle table and the call log of the
    file-system backends are threaded explicitly through every facade
    operation; the caller buffers are lists of characters updated by index. *)

From Stdlib Require Import ZArith String Ascii Lia.
From stdpp Require Import base option list strings.

Local Open Scope string_scope.
Local Open Scope list_scope.

(** ** Machine words

    [size_t] is a 64-bit unsigned word and the facade returns [int64_t]. *)

Module Word.

Local Open Scope Z_scope.

Definition modulus : Z := 2 ^ 64.
Definition half_modulus : Z := 2 ^ 63.

(** Unsigned arithmetic on [size_t] wraps around. *)
Definition wrap64 (z : Z) : Z := z mod modulus.

(** Conversion of a [size_t] value to the [int64_t] return type. *)
Definition to_int64 (z : Z) : Z :=
  if z <? half_modulus then z else z - modulus.

End Word.

Export Word.

(** ** Constants of the missing headers *)

(** Modelled from the spec: [errors.hpp], [flags.hpp], [stat_info.hpp] and
    [directory_entry.hpp] are not part of the sources.  The spec names the
    error kinds that the facade negates, the [CREATE] open flag, the three
    [stat] flags and [sizeof(directory_entry)], but not their values; they
    are parameters here.  Error codes are positive (the
    backend contract says "a positive error code") and the ones the facade
    produces itself are pairwise distinct.  A directory entry holds three
    8-byte words and the first character of its name, so that its size is at
    least 25. *)
Class Constants := {
  ERROR_NOT_EXISTS : Z;
  ERROR_INVALID_FILE_PATH : Z;
  ERROR_INVALID_FILE_DESCRIPTOR : Z;
  ERROR_BUFFER_SMALL : Z;
  ERROR_INVALID_FILE_SYSTEM : Z;
  ERROR_ALREADY_MOUNTED : Z;
  OPEN_CREATE : Z;
  STAT_FLAG_DIRECTORY : Z;
  STAT_FLAG_SYSTEM : Z;
  STAT_FLAG_HIDDEN : Z;
  sizeof_directory_entry : Z;
  errors_positive :
    Forall (fun e => (0 < e)%Z)
      [ERROR_NOT_EXISTS; ERROR_INVALID_FILE_PATH; ERROR_INVALID_FILE_DESCRIPTOR;
       ERROR_BUFFER_SMALL; ERROR_INVALID_FILE_SYSTEM; ERROR_ALREADY_MOUNTED];
  errors_distinct :
    NoDup
      [ERROR_NOT_EXISTS; ERROR_INVALID_FILE_PATH; ERROR_INVALID_FILE_DESCRIPTOR;
       ERROR_BUFFER_SMALL; ERROR_INVALID_FILE_SYSTEM; ERROR_ALREADY_MOUNTED];
  sizeof_directory_entry_min : (3 * 8 + 1 <= sizeof_directory_entry)%Z
}.

(** ** Paths *)

(** Modelled from the spec: [std::split] of [algorithms.hpp] is not part of
    the sources.  It cuts a string at every separator and discards the empty
    segments; [cur] is the segment being read. *)
Fixpoint split_from (s : string) (sep : ascii) (cur : string) : list string :=
  match s with
  | EmptyString => if String.eqb cur "" then [] else [cur]
  | String c s' =>
      if Ascii.eqb c sep then
        if String.eqb cur "" then split_from s' sep ""
        else cur :: split_from s' sep ""
      else split_from s' sep (cur +:+ String c "")
  end.

Definition std_split (s : string) (sep : ascii) : list string :=
  split_from s sep "".

(** Modelled from the spec: the [path] class of [vfs/path.hpp] is not part of
    the sources.  A path is an ordered sequence of name segments and a flag
    telling whether it is rooted at the global root. *)
Record path := Path {
  rooted : bool;
  names : list string
}.

(** [path(const std::string&)]: rooted iff the string starts with a slash. *)
Definition path_of_string (s : string) : path :=
  {| rooted := match s with String "/" _ => true | _ => false end;
     names := std_split s "/" |}.

(** [path(const path& base, const std::string&)]: the segments of the string
    appended to those of the base; the result is rooted. *)
Definition path_of_base (base : path) (s : string) : path :=
  {| rooted := true; names := names base ++ std_split s "/" |}.

Definition path_empty (p : path) : bool :=
  match names p with [] => true | _ => false end.

Definition is_root (p : path) : bool := rooted p && path_empty p.

(** [sub_path(k)]: the suffix after dropping the first [k] segments, rooted
    like the path it comes from.  The spec does not say what happens when [k]
    exceeds the size; dropping then leaves no segment. *)
Definition sub_path (p : path) (k : nat) : path :=
  {| rooted := rooted p; names := drop k (names p) |}.

(** ** File metadata and backends *)

(** Modelled from the spec: [vfs::file] is declared in a header that is not
    part of the sources; the fields are those the facade reads. *)
Record file := File {
  file_name : string;
  directory : bool;
  hidden : bool;
  system : bool;
  file_size : Z;
  created : Z;
  modified : Z;
  accessed : Z
}.

(** Modelled from the spec: [stat_info] and [statfs_info] are declared in
    headers that are not part of the sources. *)
Record stat_info := StatInfo {
  info_size : Z;
  info_flags : Z;
  info_created : Z;
  info_modified : Z;
  info_accessed : Z
}.

Record statfs_info := StatfsInfo {
  total_size : Z;
  free_size : Z
}.

(** Modelled from the spec: the abstract class [vfs::file_system] and its
    four implementations are not part of the sources.  [file_system] is the
    state of a backend object; each virtual method takes the object and
    returns its result code (zero, or a positive error code), its
    out-parameters and the object afterwards.  [fs_read] returns the bytes it
    stored at the start of the buffer it was given: their number is the [read]
    out-parameter.  [fs_write] returns the [written] out-parameter. *)
Class Backend := {
  file_system : Type;
  new_fat32 : string -> string -> file_system;
  new_sysfs : string -> file_system;
  new_devfs : string -> file_system;
  new_procfs : string -> file_system;
  fs_init : file_system -> file_system;
  fs_statfs : statfs_info -> file_system -> (Z * statfs_info) * file_system;
  fs_get_file : path -> file_system -> (Z * file) * file_system;
  fs_touch : path -> file_system -> Z * file_system;
  fs_mkdir : path -> file_system -> Z * file_system;
  fs_rm : path -> file_system -> Z * file_system;
  fs_read : path -> Z -> Z -> file_system -> (Z * list ascii) * file_system;
  fs_write : path -> list ascii -> Z -> Z -> file_system -> (Z * Z) * file_system;
  fs_ls : path -> file_system -> (Z * list file) * file_system
}.

(** The backend calls the facade makes, recorded with the index of the mount
    they were made on. *)
Inductive fs_call :=
| CallInit
| CallStatfs
| CallGetFile (p : path)
| CallTouch (p : path)
| CallMkdir (p : path)
| CallRm (p : path)
| CallRead (p : path) (count offset : Z)
| CallWrite (p : path) (count offset : Z)
| CallLs (p : path).

(** The enumerators of [vfs::partition_type] that [partition_type_to_string]
    and [get_new_fs] switch over. *)
Inductive partition_type := FAT32 | SYSFS | DEVFS | PROCFS | UNKNOWN.

Definition partition_type_to_string (type : partition_type) : string :=
  match type with
  | FAT32 => "FAT32"
  | SYSFS => "sysfs"
  | DEVFS => "devfs"
  | PROCFS => "procfs"
  | UNKNOWN => "Unknown"
  end.

(** ** Longest-prefix lookup in a list of segment vectors

    [get_fs] only looks at the [mp_vec] of each mount; the scan is written
    over the list of these vectors. *)

(** The inner loop of [get_fs]: [j] runs while it is below both sizes and the
    match fails at the first [j] where the two segments differ. *)
Fixpoint segments_match (mp_vec base_path : list string) : bool :=
  match mp_vec, base_path with
  | x :: mp_vec', y :: base_path' =>
      if String.eqb x y then segments_match mp_vec' base_path' else false
  | _, _ => true
  end.

(** The outer loop: [i] is the index of the head of [vecs], the state is
    [(best, best_match)]. *)
Fixpoint scan_mounts (vecs : list (list string)) (base_path : list string)
    (i best best_match : nat) : nat * nat :=
  match vecs with
  | [] => (best, best_match)
  | mp_vec :: vecs' =>
      if segments_match mp_vec base_path && (best <? length mp_vec)%nat
      then scan_mounts vecs' base_path (S i) (length mp_vec) i
      else scan_mounts vecs' base_path (S i) best best_match
  end.

(** The first loop, entered for the root path only: the index of the first
    mount whose [mp_vec] is empty. *)
Fixpoint find_root (vecs : list (list string)) (i : nat) : option nat :=
  match vecs with
  | [] => None
  | [] :: _ => Some i
  | _ :: vecs' => find_root vecs' (S i)
  end.

Definition get_fs_index (vecs : list (list string)) (base_path : path) : nat :=
  match (if is_root base_path then find_root vecs 0 else None) with
  | Some i => i
  | None => snd (scan_mounts vecs (names base_path) 0 0 0)
  end.

(** ** Caller buffers

    A character buffer is the list of the characters it points to; storing
    through the pointer updates the list by index.  A store beyond the end of
    the list (undefined behaviour in the source) leaves it as it is. *)

Definition NUL : ascii := Ascii.zero.

Definition chars (s : string) : list ascii := list_ascii_of_string s.

(** The loops [for (j = 0; j < s.size(); ++j) buffer[pos + j] = s[j]]. *)
Fixpoint store_bytes (buffer : list ascii) (pos : nat) (cs : list ascii)
    : list ascii :=
  match cs with
  | [] => buffer
  | c :: cs' => store_bytes (<[pos := c]> buffer) (S pos) cs'
  end.

(** A [size_t] field is stored as eight bytes, least significant first. *)
Definition byte_of (z : Z) : ascii := ascii_of_N (Z.to_N (z mod 256)).

Fixpoint encode_le (n : nat) (z : Z) : list ascii :=
  match n with
  | O => []
  | S n' => byte_of z :: encode_le n' (z / 256)
  end.

Fixpoint decode_le (cs : list ascii) : Z :=
  match cs with
  | [] => 0
  | c :: cs' => Z.of_N (N_of_ascii c) + 256 * decode_le cs'
  end.

Definition store_word (buffer : list ascii) (pos : nat) (z : Z) : list ascii :=
  store_bytes buffer pos (encode_le 8 z).

Definition load_word (buffer : list ascii) (pos : nat) : Z :=
  decode_le (take 8 (drop pos buffer)).

(** Modelled from the spec: [std::string] of [string.hpp] is not part of the
    sources.  A string object owns a storage of [capacity] characters of which
    the first [str_size] are its contents. *)
Record std_string := StdString {
  str_data : list ascii;
  str_size : nat
}.

Definition reserve (n : nat) (s : std_string) : std_string :=
  if (length (str_data s) <? n)%nat
  then {| str_data := str_data s ++ replicate (n - length (str_data s)) NUL;
          str_size := str_size s |}
  else s.

Definition adjust_size (n : nat) (s : std_string) : std_string :=
  {| str_data := str_data s; str_size := n |}.

Definition contents (s : std_string) : list ascii :=
  take (str_size s) (str_data s).

(** ** The facade *)

Section Facade.

Context `{Constants} `{Backend}.

Local Open Scope Z_scope.

Record mounted_fs := MountedFs {
  fs_type : partition_type;
  device : string;
  mount_point : string;
  mfs_file_system : file_system;
  mp_vec : list string
}.

(** The constructor of [mounted_fs] splits the mount point. *)
Definition make_mounted_fs (type : partition_type) (dev mp : string)
    (fs : file_system) : mounted_fs :=
  {| fs_type := type; device := dev; mount_point := mp;
     mfs_file_system := fs; mp_vec := std_split mp "/" |}.

Definition with_file_system (mp : mounted_fs) (fs : file_system) : mounted_fs :=
  {| fs_type := fs_type mp; device := device mp;
     mount_point := mount_point mp; mfs_file_system := fs;
     mp_vec := mp_vec mp |}.

(** Modelled from the spec: the scheduler is not part of the sources.  It
    keeps the working directory of the current process and its table of
    handles; a descriptor is an index in that table. *)
Record world := World {
  mount_point_list : list mounted_fs;
  working_directory : path;
  handles : list path;
  backend_log : list (nat * fs_call)
}.

Definition has_handle (w : world) (fd : nat) : bool :=
  (fd <? length (handles w))%nat.

Definition get_handle (w : world) (fd : nat) : option path :=
  handles w !! fd.

Definition register_new_handle (p : path) (w : world) : Z * world :=
  (Z.of_nat (length (handles w)),
   {| mount_point_list := mount_point_list w;
      working_directory := working_directory w;
      handles := handles w ++ [p];
      backend_log := backend_log w |}).

Definition set_mounts (w : world) (l : list mounted_fs) : world :=
  {| mount_point_list := l;
     working_directory := working_directory w;
     handles := handles w;
     backend_log := backend_log w |}.

(** A call of a virtual method on the backend of mount [i]: the object is
    updated in place and the call is logged ([after_call]).  There is no
    result when the registry has no entry [i] (the source then indexes an
    empty vector). *)
Definition after_call (w : world) (i : nat) (mp : mounted_fs)
    (fs' : file_system) (c : fs_call) : world :=
  {| mount_point_list := <[i := with_file_system mp fs']> (mount_point_list w);
     working_directory := working_directory w;
     handles := handles w;
     backend_log := backend_log w ++ [(i, c)] |}.

Definition invoke {A : Type} (i : nat) (c : fs_call)
    (method : file_system -> A * file_system) (w : world)
    : option (A * world) :=
  match mount_point_list w !! i with
  | Some mp =>
      let '(a, fs') := method (mfs_file_system mp) in
      Some (a, after_call w i mp fs' c)
  | None => None
  end.

Definition get_path (w : world) (file_path : string) : path :=
  match file_path with
  | String "/" _ => path_of_string file_path
  | _ => path_of_base (working_directory w) file_path
  end.

(** [get_fs] returns a reference into the registry: its index. *)
Definition get_fs (l : list mounted_fs) (base_path : path) : nat :=
  get_fs_index (map mp_vec l) base_path.

Definition get_fs_path (base_path : path) (fs : mounted_fs) : path :=
  sub_path base_path (length (mp_vec fs)).

Definition get_new_fs (type : partition_type) (mp dev : string)
    : option file_system :=
  match type with
  | FAT32 => Some (new_fat32 mp dev)
  | SYSFS => Some (new_sysfs mp)
  | DEVFS => Some (new_devfs mp)
  | PROCFS => Some (new_procfs mp)
  | UNKNOWN => None
  end.

(** [vfs::mount], the overload taking the mount point and the device as
    C strings. *)
Definition mount (type : partition_type) (mp dev : string) (w : world)
    : Z * world :=
  match get_new_fs type mp dev with
  | None => (- ERROR_INVALID_FILE_SYSTEM, w)
  | Some fs =>
      (0, set_mounts w (mount_point_list w ++ [make_mounted_fs type dev mp fs]))
  end.

Definition mount_root := mount FAT32 "/" "/dev/hda1".
Definition mount_sys := mount SYSFS "/sys/" "none".
Definition mount_dev := mount DEVFS "/dev/" "none".
Definition mount_proc := mount PROCFS "/proc/" "none".

(** The loop of [vfs::init] over the registry, from index [i] on. *)
Fixpoint init_from (n i : nat) (w : world) : option world :=
  match n with
  | O => Some w
  | S n' =>
      '(_, w') ← invoke i CallInit (fun fs => (tt, fs_init fs)) w;
      init_from n' (S i) w'
  end.

Definition init (w : world) : option world :=
  let w := snd (mount_root w) in
  let w := snd (mount_sys w) in
  let w := snd (mount_dev w) in
  let w := snd (mount_proc w) in
  init_from (length (mount_point_list w)) 0 w.

(** The string built from a handle: a slash, then each segment followed by
    a slash. *)
Definition join_path (p : path) : string :=
  fold_left (fun mp seg => (mp +:+ seg) +:+ "/") (names p) "/".

(** [vfs::mount], the overload taking two file descriptors. *)
Definition mount_fd (type : partition_type) (mp_fd dev_fd : nat) (w : world)
    : option (Z * world) :=
  if negb (has_handle w mp_fd) then
    Some (- ERROR_INVALID_FILE_DESCRIPTOR, w)
  else if negb (has_handle w dev_fd) then
    Some (- ERROR_INVALID_FILE_DESCRIPTOR, w)
  else
    mp_path ← get_handle w mp_fd;
    dev_path ← get_handle w dev_fd;
    let mp := join_path mp_path in
    let dev := join_path dev_path in
    if existsb (fun m => String.eqb (mount_point m) mp) (mount_point_list w)
    then Some (- ERROR_ALREADY_MOUNTED, w)
    else
      match get_new_fs type mp dev with
      | None => Some (- ERROR_INVALID_FILE_SYSTEM, w)
      | Some fs =>
          let i := length (mount_point_list w) in
          let w :=
            set_mounts w (mount_point_list w ++ [make_mounted_fs type dev mp fs]) in
          '(_, w) ← invoke i CallInit (fun fs => (tt, fs_init fs)) w;
          Some (0, w)
      end.

Definition statfs (mp : string) (info : statfs_info) (w : world)
    : option ((Z * statfs_info) * world) :=
  if (String.length mp =? 0)%nat then
    Some ((- ERROR_INVALID_FILE_PATH, info), w)
  else
    let base_path := get_path w mp in
    let i := get_fs (mount_point_list w) base_path in
    invoke i CallStatfs (fs_statfs info) w.

Definition open (file_path : string) (flags : Z) (w : world)
    : option (Z * world) :=
  if String.eqb file_path "" then Some (- ERROR_INVALID_FILE_PATH, w)
  else
    let base_path := get_path w file_path in
    let i := get_fs (mount_point_list w) base_path in
    fs ← mount_point_list w !! i;
    let fs_path := get_fs_path base_path fs in
    if is_root fs_path then Some (register_new_handle base_path w)
    else
      '(sub_result, w) ←
        (if negb (Z.land flags OPEN_CREATE =? 0) then
           '(r, w) ← invoke i (CallGetFile fs_path) (fs_get_file fs_path) w;
           if fst r =? ERROR_NOT_EXISTS
           then invoke i (CallTouch fs_path) (fs_touch fs_path) w
           else Some (fst r, w)
         else
           '(r, w) ← invoke i (CallGetFile fs_path) (fs_get_file fs_path) w;
           Some (fst r, w));
      if 0 <? sub_result then Some (- sub_result, w)
      else Some (register_new_handle base_path w).

Definition mkdir (file_path : string) (w : world) : option (Z * world) :=
  if String.eqb file_path "" then Some (- ERROR_INVALID_FILE_PATH, w)
  else
    let base_path := get_path w file_path in
    let i := get_fs (mount_point_list w) base_path in
    fs ← mount_point_list w !! i;
    let fs_path := get_fs_path base_path fs in
    invoke i (CallMkdir fs_path) (fs_mkdir fs_path) w.

Definition rm (file_path : string) (w : world) : option (Z * world) :=
  if String.eqb file_path "" then Some (- ERROR_INVALID_FILE_PATH, w)
  else
    let base_path := get_path w file_path in
    let i := get_fs (mount_point_list w) base_path in
    fs ← mount_point_list w !! i;
    let fs_path := get_fs_path base_path fs in
    invoke i (CallRm fs_path) (fs_rm fs_path) w.

Definition stat (fd : nat) (info : stat_info) (w : world)
    : option ((Z * stat_info) * world) :=
  if negb (has_handle w fd) then
    Some ((- ERROR_INVALID_FILE_DESCRIPTOR, info), w)
  else
    base_path ← get_handle w fd;
    let i := get_fs (mount_point_list w) base_path in
    fs ← mount_point_list w !! i;
    let fs_path := get_fs_path base_path fs in
    if path_empty fs_path then
      Some ((0, {| info_size := 4096;
                   info_flags := STAT_FLAG_DIRECTORY;
                   info_created := info_created info;
                   info_modified := info_modified info;
                   info_accessed := info_accessed info |}), w)
    else
      '(r, w) ← invoke i (CallGetFile fs_path) (fs_get_file fs_path) w;
      let '(result, f) := r in
      if 0 <? result then Some ((- result, info), w)
      else
        let flags := 0 in
        let flags :=
          if directory f then Z.lor flags STAT_FLAG_DIRECTORY else flags in
        let flags :=
          if system f then Z.lor flags STAT_FLAG_SYSTEM else flags in
        let flags :=
          if hidden f then Z.lor flags STAT_FLAG_HIDDEN else flags in
        Some ((0, {| info_size := file_size f;
                     info_flags := flags;
                     info_created := created f;
                     info_modified := modified f;
                     info_accessed := accessed f |}), w).

(** [vfs::direct_read], the overload reading into a character buffer. *)
Definition direct_read (file_path : string) (buffer : list ascii)
    (count offset : Z) (w : world) : option ((Z * list ascii) * world) :=
  let base_path := get_path w file_path in
  let i := get_fs (mount_point_list w) base_path in
  fs ← mount_point_list w !! i;
  let fs_path := get_fs_path base_path fs in
  '(r, w) ← invoke i (CallRead fs_path count offset)
              (fs_read fs_path count offset) w;
  let '(result, data) := r in
  let buffer := store_bytes buffer 0 data in
  let read := Z.of_nat (length data) in
  if 0 <? result then Some ((- result, buffer), w)
  else Some ((to_int64 read, buffer), w).

Definition direct_write (file_path : string) (buffer : list ascii)
    (count offset : Z) (w : world) : option (Z * world) :=
  let base_path := get_path w file_path in
  let i := get_fs (mount_point_list w) base_path in
  fs ← mount_point_list w !! i;
  let fs_path := get_fs_path base_path fs in
  '(r, w) ← invoke i (CallWrite fs_path count offset)
              (fs_write fs_path buffer count offset) w;
  let '(result, written) := r in
  if 0 <? result then Some (- result, w)
  else Some (to_int64 written, w).

(** [vfs::direct_read], the overload reading into a [std::string]. *)
Definition direct_read_string (file_path : string) (content : std_string)
    (w : world) : option ((Z * std_string) * world) :=
  let base_path := get_path w file_path in
  let i := get_fs (mount_point_list w) base_path in
  fs ← mount_point_list w !! i;
  let fs_path := get_fs_path base_path fs in
  '(r, w) ← invoke i (CallGetFile fs_path) (fs_get_file fs_path) w;
  let '(result, f) := r in
  if 0 <? result then Some ((- result, content), w)
  else
    let content := reserve (Z.to_nat (wrap64 (file_size f + 1))) content in
    '(r, w) ← invoke i (CallRead fs_path (file_size f) 0)
                (fs_read fs_path (file_size f) 0) w;
    let '(result, data) := r in
    let content :=
      {| str_data := store_bytes (str_data content) 0 data;
         str_size := str_size content |} in
    let read := length data in
    if 0 <? result then Some ((- result, content), w)
    else
      let content :=
        {| str_data := <[read := NUL]> (str_data content);
           str_size := str_size content |} in
      let content := adjust_size read content in
      Some ((to_int64 (Z.of_nat read), content), w).

(** *** The directory listing *)

(** Modelled from the spec: [directory_entry] is declared in a header that
    is not part of the sources.  Its fields are three 8-byte words,
    [offset_next], [type] and [length], followed by the first character of
    the name. *)
Definition entry_offset_next : nat := 0.
Definition entry_type : nat := 8.
Definition entry_length : nat := 16.
Definition entry_name : nat := 24.

Definition name_size (f : file) : Z := Z.of_nat (String.length (file_name f)).

(** The first loop of [entries]. *)
Definition entries_total_size (files : list file) : Z :=
  fold_left
    (fun total_size f => wrap64 (total_size + (sizeof_directory_entry + name_size f)))
    files 0.

(** The second loop of [entries]; [i + 1 < files.size()] holds iff files
    follow the current one. *)
Fixpoint entries_loop (files : list file) (position : Z)
    (buffer : list ascii) : list ascii :=
  match files with
  | [] => buffer
  | f :: rest =>
      let entry := Z.to_nat position in
      let buffer := store_word buffer (entry + entry_type) 0 in
      let buffer := store_word buffer (entry + entry_length) (name_size f) in
      let offset_next :=
        match rest with
        | [] => 0
        | _ => wrap64 (name_size f + 1 + 3 * 8)
        end in
      let buffer := store_word buffer (entry + entry_offset_next) offset_next in
      let position :=
        match rest with
        | [] => position
        | _ => wrap64 (position + offset_next)
        end in
      let name_buffer := (entry + entry_name)%nat in
      let buffer := store_bytes buffer name_buffer (chars (file_name f)) in
      let buffer :=
        <[(name_buffer + String.length (file_name f))%nat := NUL]> buffer in
      entries_loop rest position buffer
  end.

Definition entries (fd : nat) (buffer : list ascii) (size : Z) (w : world)
    : option ((Z * list ascii) * world) :=
  if negb (has_handle w fd) then
    Some ((- ERROR_INVALID_FILE_DESCRIPTOR, buffer), w)
  else
    base_path ← get_handle w fd;
    let i := get_fs (mount_point_list w) base_path in
    fs ← mount_point_list w !! i;
    let fs_path := get_fs_path base_path fs in
    '(r, w) ← invoke i (CallLs fs_path) (fs_ls fs_path) w;
    let '(result, files) := r in
    if 0 <? result then Some ((- result, buffer), w)
    else
      let total_size := entries_total_size files in
      if size <? total_size then Some ((- ERROR_BUFFER_SMALL, buffer), w)
      else
        Some ((to_int64 total_size, entries_loop files 0 buffer), w).

(** *** The mount listing *)

(** Modelled from the spec: [mount_point] is declared in a header that is
    not part of the sources.  Its fields are four words, [offset_next],
    [length_mp], [length_dev] and [length_type], followed by the first
    character of the strings. *)
Definition mp_offset_next : nat := 0.
Definition mp_length_mp : nat := 8.
Definition mp_length_dev : nat := 16.
Definition mp_length_type : nat := 24.
Definition mp_name : nat := 32.

(** [sizeof(size_t)]: the words are the 8-byte ones [entries] counts. *)
Definition sizeof_size_t : Z := 8.

Definition str_len (s : string) : Z := Z.of_nat (String.length s).

Definition mount_record_size (mp : mounted_fs) : Z :=
  wrap64 (4 * sizeof_size_t + 3 + str_len (device mp)
          + str_len (mount_point mp)
          + str_len (partition_type_to_string (fs_type mp))).

Definition mounts_total_size (l : list mounted_fs) : Z :=
  fold_left (fun total_size mp => wrap64 (total_size + mount_record_size mp))
    l 0.

Fixpoint mounts_loop (l : list mounted_fs) (position : Z)
    (buffer : list ascii) : list ascii :=
  match l with
  | [] => buffer
  | mp :: rest =>
      let entry := Z.to_nat position in
      let fs_type := partition_type_to_string (fs_type mp) in
      let buffer :=
        store_word buffer (entry + mp_length_mp) (str_len (mount_point mp)) in
      let buffer :=
        store_word buffer (entry + mp_length_dev) (str_len (device mp)) in
      let buffer :=
        store_word buffer (entry + mp_length_type) (str_len fs_type) in
      let offset_next :=
        match rest with
        | [] => 0
        | _ => mount_record_size mp
        end in
      let buffer := store_word buffer (entry + mp_offset_next) offset_next in
      let position :=
        match rest with
        | [] => position
        | _ => wrap64 (position + offset_next)
        end in
      let name_buffer := (entry + mp_name)%nat in
      let str_pos := 0%nat in
      let buffer :=
        store_bytes buffer (name_buffer + str_pos) (chars (mount_point mp)) in
      let str_pos := (str_pos + String.length (mount_point mp))%nat in
      let buffer := <[(name_buffer + str_pos)%nat := NUL]> buffer in
      let str_pos := S str_pos in
      let buffer :=
        store_bytes buffer (name_buffer + str_pos) (chars (device mp)) in
      let str_pos := (str_pos + String.length (device mp))%nat in
      let buffer := <[(name_buffer + str_pos)%nat := NUL]> buffer in
      let str_pos := S str_pos in
      let buffer :=
        store_bytes buffer (name_buffer + str_pos) (chars fs_type) in
      let str_pos := (str_pos + String.length fs_type)%nat in
      let buffer := <[(name_buffer + str_pos)%nat := NUL]> buffer in
      mounts_loop rest position buffer
  end.

Definition mounts (buffer : list ascii) (size : Z) (w : world)
    : Z * list ascii :=
  let total_size := mounts_total_size (mount_point_list w) in
  if size <? total_size then (- ERROR_BUFFER_SMALL, buffer)
  else (to_int64 total_size, mounts_loop (mount_point_list w) 0 buffer).

End Facade.

(** ** A concrete platform

    One admissible choice of the constants, with the directory entry laid out
    as the compiler does for three 8-byte words and one character (32 bytes,
    the character padded to the alignment of the words), and a small
    in-memory backend; they serve to run the facade on concrete inputs. *)

Definition sample_constants : Constants.
Proof.
  refine {| ERROR_NOT_EXISTS := 1;
            ERROR_INVALID_FILE_PATH := 5;
            ERROR_INVALID_FILE_DESCRIPTOR := 7;
            ERROR_BUFFER_SMALL := 10;
            ERROR_INVALID_FILE_SYSTEM := 11;
            ERROR_ALREADY_MOUNTED := 19;
            OPEN_CREATE := 1;
            STAT_FLAG_DIRECTORY := 1;
            STAT_FLAG_HIDDEN := 2;
            STAT_FLAG_SYSTEM := 4;
            sizeof_directory_entry := 32 |}.
  - repeat constructor.
  - apply (bool_decide_unpack _). reflexivity.
  - discriminate.
Defined.

Module MemFs.

(** A node is a file or a directory, found by its full list of segments. *)
Record node := Node {
  node_names : list string;
  node_directory : bool;
  node_data : list ascii
}.

Definition t : Type := list node.

Definition find_node (p : path) (fs : t) : option node :=
  List.find (fun n => bool_decide (node_names n = names p)) fs.

Definition file_of (n : node) : file :=
  {| file_name := List.last (node_names n) "";
     directory := node_directory n;
     hidden := false;
     system := false;
     file_size := Z.of_nat (length (node_data n));
     created := 0; modified := 0; accessed := 0 |}.

Definition not_exists : Z := @ERROR_NOT_EXISTS sample_constants.

Definition no_file : file := File "" false false false 0 0 0 0.

Definition mem_get_file (p : path) (fs : t) : (Z * file) * t :=
  match find_node p fs with
  | Some n => ((0%Z, file_of n), fs)
  | None => ((not_exists, no_file), fs)
  end.

Definition mem_touch (p : path) (fs : t) : Z * t :=
  (0%Z, fs ++ [Node (names p) false []]).

Definition mem_mkdir (p : path) (fs : t) : Z * t :=
  (0%Z, fs ++ [Node (names p) true []]).

Definition mem_rm (p : path) (fs : t) : Z * t :=
  match find_node p fs with
  | Some _ =>
      (0%Z, List.filter (fun n => negb (bool_decide (node_names n = names p))) fs)
  | None => (not_exists, fs)
  end.

Definition mem_read (p : path) (count offset : Z) (fs : t)
    : (Z * list ascii) * t :=
  match find_node p fs with
  | Some n =>
      ((0%Z, take (Z.to_nat count) (drop (Z.to_nat offset) (node_data n))), fs)
  | None => ((not_exists, []), fs)
  end.

Definition mem_write (p : path) (buffer : list ascii) (count offset : Z) (fs : t)
    : (Z * Z) * t :=
  match find_node p fs with
  | Some _ =>
      ((0%Z, count),
       map (fun n =>
              if bool_decide (node_names n = names p)
              then Node (node_names n) (node_directory n)
                     (take (Z.to_nat offset) (node_data n)
                      ++ take (Z.to_nat count) buffer)
              else n) fs)
  | None => ((not_exists, 0%Z), fs)
  end.

Definition mem_ls (p : path) (fs : t) : (Z * list file) * t :=
  ((0%Z,
    map file_of
      (List.filter
         (fun n => bool_decide (removelast (node_names n) = names p)
                   && negb (bool_decide (node_names n = [])))
         fs)),
   fs).

Definition backend : Backend :=
  {| file_system := t;
     new_fat32 := fun _ _ => [];
     new_sysfs := fun _ => [];
     new_devfs := fun _ => [];
     new_procfs := fun _ => [];
     fs_init := fun fs => fs;
     fs_statfs := fun info fs => ((0%Z, info), fs);
     fs_get_file := mem_get_file;
     fs_touch := mem_touch;
     fs_mkdir := mem_mkdir;
     fs_rm := mem_rm;
     fs_read := mem_read;
     fs_write := mem_write;
     fs_ls := mem_ls |}.

End MemFs.

(** ** What a reader of the listings sees

    The layouts the serializers produce, written as lists of characters, and
    the readers user space runs over them: a reader starts at the first
    record and advances by [offset_next] until it reads zero there. *)

Section Listings.

Context `{Constants} `{Backend}.

Local Open Scope Z_scope.

(** The bytes of one directory entry. *)
Definition entry_image (f : file) (last : bool) : list ascii :=
  encode_le 8 (if last then 0 else name_size f + 1 + 3 * 8)
  ++ encode_le 8 0
  ++ encode_le 8 (name_size f)
  ++ chars (file_name f) ++ [NUL].

Definition is_last {A : Type} (rest : list A) : bool :=
  match rest with [] => true | _ => false end.

Fixpoint listing_image (files : list file) : list ascii :=
  match files with
  | [] => []
  | f :: rest => entry_image f (is_last rest) ++ listing_image rest
  end.

(** The sum the first loop of [entries] computes, without wrap-around. *)
Definition entries_required_size (files : list file) : Z :=
  fold_right (fun f acc => sizeof_directory_entry + name_size f + acc) 0 files.

(** The number of bytes the entries occupy in the buffer. *)
Definition entries_written_size (files : list file) : Z :=
  fold_right (fun f acc => name_size f + 1 + 3 * 8 + acc) 0 files.

Record directory_entry := DirectoryEntry {
  de_offset_next : Z;
  de_type : Z;
  de_length : Z;
  de_name : list ascii
}.

Fixpoint read_entries (fuel : nat) (buffer : list ascii) (pos : nat)
    : list directory_entry :=
  match fuel with
  | O => []
  | S fuel' =>
      let next := load_word buffer (pos + entry_offset_next) in
      let len := load_word buffer (pos + entry_length) in
      {| de_offset_next := next;
         de_type := load_word buffer (pos + entry_type);
         de_length := len;
         de_name := take (Z.to_nat len) (drop (pos + entry_name) buffer) |}
      :: (if next =? 0 then []
          else read_entries fuel' buffer (pos + Z.to_nat next))
  end.

Fixpoint expected_entries (files : list file) : list directory_entry :=
  match files with
  | [] => []
  | f :: rest =>
      {| de_offset_next := if is_last rest then 0 else name_size f + 1 + 3 * 8;
         de_type := 0;
         de_length := name_size f;
         de_name := chars (file_name f) |}
      :: expected_entries rest
  end.

(** The stores of one iteration of the second loop of [entries]. *)
Definition entry_stores (f : file) (offset_next : Z) (entry : nat)
    (buffer : list ascii) : list ascii :=
  let buffer := store_word buffer (entry + entry_type) 0 in
  let buffer := store_word buffer (entry + entry_length) (name_size f) in
  let buffer := store_word buffer (entry + entry_offset_next) offset_next in
  let name_buffer := (entry + entry_name)%nat in
  let buffer := store_bytes buffer name_buffer (chars (file_name f)) in
  <[(name_buffer + String.length (file_name f))%nat := NUL]> buffer.

(** The bytes of one mount record. *)
Definition mount_required_size (mp : mounted_fs) : Z :=
  4 * sizeof_size_t + 3 + str_len (device mp) + str_len (mount_point mp)
  + str_len (partition_type_to_string (fs_type mp)).

Definition mount_image (mp : mounted_fs) (last : bool) : list ascii :=
  encode_le 8 (if last then 0 else mount_required_size mp)
  ++ encode_le 8 (str_len (mount_point mp))
  ++ encode_le 8 (str_len (device mp))
  ++ encode_le 8 (str_len (partition_type_to_string (fs_type mp)))
  ++ chars (mount_point mp) ++ [NUL]
  ++ chars (device mp) ++ [NUL]
  ++ chars (partition_type_to_string (fs_type mp)) ++ [NUL].

(** The stores of one iteration of the second loop of [mounts]. *)
Definition mount_stores (mp : mounted_fs) (offset_next : Z) (entry : nat)
    (buffer : list ascii) : list ascii :=
  let fs_type := partition_type_to_string (fs_type mp) in
  let buffer :=
    store_word buffer (entry + mp_length_mp) (str_len (mount_point mp)) in
  let buffer :=
    store_word buffer (entry + mp_length_dev) (str_len (device mp)) in
  let buffer :=
    store_word buffer (entry + mp_length_type) (str_len fs_type) in
  let buffer := store_word buffer (entry + mp_offset_next) offset_next in
  let name_buffer := (entry + mp_name)%nat in
  let str_pos := 0%nat in
  let buffer :=
    store_bytes buffer (name_buffer + str_pos) (chars (mount_point mp)) in
  let str_pos := (str_pos + String.length (mount_point mp))%nat in
  let buffer := <[(name_buffer + str_pos)%nat := NUL]> buffer in
  let str_pos := S str_pos in
  let buffer :=
    store_bytes buffer (name_buffer + str_pos) (chars (device mp)) in
  let str_pos := (str_pos + String.length (device mp))%nat in
  let buffer := <[(name_buffer + str_pos)%nat := NUL]> buffer in
  let str_pos := S str_pos in
  let buffer :=
    store_bytes buffer (name_buffer + str_pos) (chars fs_type) in
  let str_pos := (str_pos + String.length fs_type)%nat in
  <[(name_buffer + str_pos)%nat := NUL]> buffer.

Fixpoint mounts_image (l : list mounted_fs) : list ascii :=
  match l with
  | [] => []
  | mp :: rest => mount_image mp (is_last rest) ++ mounts_image rest
  end.

Definition mounts_required_size (l : list mounted_fs) : Z :=
  fold_right (fun mp acc => mount_required_size mp + acc) 0 l.

(** A NUL-terminated string read from the start of [cs]. *)
Fixpoint c_string (cs : list ascii) : list ascii :=
  match cs with
  | [] => []
  | c :: cs' => if Ascii.eqb c NUL then [] else c :: c_string cs'
  end.

Definition nul_free (s : string) : Prop := NUL ∉ chars s.

(** The strings of a mount come from C strings: they hold no NUL. *)
Definition well_formed_mount (mp : mounted_fs) : Prop :=
  nul_free (mount_point mp) /\ nul_free (device mp).

(** The three strings of the record at [pos], read one after the other. *)
Definition read_mount_strings (buffer : list ascii) (pos : nat)
    : string * string * string :=
  let rest := drop (pos + mp_name) buffer in
  let s1 := c_string rest in
  let rest := drop (S (length s1)) rest in
  let s2 := c_string rest in
  let rest := drop (S (length s2)) rest in
  let s3 := c_string rest in
  (string_of_list_ascii s1, string_of_list_ascii s2, string_of_list_ascii s3).

Fixpoint read_mounts (fuel : nat) (buffer : list ascii) (pos : nat)
    : list (string * string * string) :=
  match fuel with
  | O => []
  | S fuel' =>
      let next := load_word buffer (pos + mp_offset_next) in
      read_mount_strings buffer pos
      :: (if next =? 0 then []
          else read_mounts fuel' buffer (pos + Z.to_nat next))
  end.

(** Nothing was emitted when [mounts] returned zero; else the records are
    read from the start of the buffer.  Every record takes more than one
    byte, so the length of the buffer is fuel enough. *)
Definition parse_mounts (returned : Z) (buffer : list ascii)
    : list (string * string * string) :=
  if returned =? 0 then [] else read_mounts (length buffer) buffer 0.

Definition mount_triple (mp : mounted_fs) : string * string * string :=
  (mount_point mp, device mp, partition_type_to_string (fs_type mp)).

(** *** The properties of the registry *)

(** The mount point [mp] duplicates a live mount. *)
Definition duplicates (w : world) (mp : string) : Prop :=
  exists m, m ∈ mount_point_list w /\ mount_point m = mp.

(** The mount at index [i] is a longest one among those whose segments are
    a prefix of the segments of [b]. *)
Definition longest_prefix_at (vecs : list (list string)) (b : list string)
    (i : nat) : Prop :=
  exists v, vecs !! i = Some v /\ v `prefix_of` b /\
    forall v', v' ∈ vecs -> v' `prefix_of` b -> (length v' <= length v)%nat.

(** Invariant (b) of the registry: no two live mounts have the same
    segments. *)
Definition distinct_segments (l : list mounted_fs) : Prop :=
  NoDup (map mp_vec l).

(** The segments followed by a slash each, as [join_path] appends them. *)
Definition joined (segs : list string) : string :=
  fold_right (fun seg rest => seg +:+ "/" +:+ rest) "" segs.

(** A segment of a path is not empty and holds no slash. *)
Definition valid_segment (seg : string) : Prop :=
  seg <> "" /\ "/"%char ∉ chars seg.

Definition valid_path (p : path) : Prop := Forall valid_segment (names p).

(** The mount point of a canonical entry is the string [join_path] builds
    from its segments. *)
Definition canonical_mount (mp : mounted_fs) : Prop :=
  mount_point mp = join_path (Path true (mp_vec mp)).

Definition registry_invariant (l : list mounted_fs) : Prop :=
  distinct_segments l /\ Forall canonical_mount l.

End Listings.

Section SampleWorlds.

#[local] Existing Instance sample_constants.
#[local] Existing Instance MemFs.backend.

(** The empty world the kernel boots in. *)
Definition boot_world : world :=
  {| mount_point_list := []; working_directory := Path true [];
     handles := []; backend_log := [] |}.

(** The booted system: the four mounts of [init]. *)
Definition booted_world : world := default boot_world (init boot_world).

(** The booted system seen by a process whose working directory is
    [/home/user]. *)
Definition home_world : world :=
  {| mount_point_list := mount_point_list booted_world;
     working_directory := Path true ["home"; "user"];
     handles := [];
     backend_log := [] |}.

(** A system in which [/sys/] was opened: descriptor 0 refers to it. *)
Definition sys_world : world :=
  default booted_world ('(_, w) ← open "/sys/" 0 booted_world; Some w).

(** A system with the files [/a] and [/bb], the first holding five bytes:
    descriptors 0 and 1 refer to the files, descriptor 2 to the root
    directory. *)
Definition files_world : world :=
  default booted_world
    ('(_, w) ← open "/a" 1 booted_world;
     '(_, w) ← open "/bb" 1 w;
     '(_, w) ← open "/" 0 w;
     '(_, w) ← direct_write "/a" (chars "hello") 5 0 w;
     Some w).

(** The listing of its root directory. *)
Definition root_files : list file :=
  [File "a" false false false 5 0 0 0; File "bb" false false false 0 0 0 0].

(** A system in which [/a/b/] was then mounted through two descriptors. *)
Definition nested_world : world :=
  default booted_world
    ('(_, w) ← open "/a/b" 1 booted_world;
     '(_, w) ← open "/dev/hda2" 1 w;
     '(_, w) ← mount_fd FAT32 0 1 w;
     Some w).

End SampleWorlds.

(** ** The descriptor forms of the transfers *)

(** Modelled from the spec: the methods [clear] and [truncate] of the
    abstract class [vfs::file_system], which is not part of the sources.
    [fs_clear] returns its result code and the [written] out-parameter,
    [fs_truncate] its result code. *)
Class BackendExt `{Backend} := {
  fs_clear : path -> Z -> Z -> file_system -> (Z * Z) * file_system;
  fs_truncate : path -> Z -> file_system -> Z * file_system
}.

Section Transfers.

Context `{Constants} `{BackendExt}.

Local Open Scope Z_scope.

(** A call of [clear] or [truncate] on the backend of mount [i]: the object
    is updated in place.  [fs_call] has no name for these two methods, so
    that the call leaves the log as it is. *)
Definition after_method (w : world) (i : nat) (mp : mounted_fs)
    (fs' : file_system) : world :=
  {| mount_point_list := <[i := with_file_system mp fs']> (mount_point_list w);
     working_directory := working_directory w;
     handles := handles w;
     backend_log := backend_log w |}.

Definition invoke_unlogged {A : Type} (i : nat)
    (method : file_system -> A * file_system) (w : world)
    : option (A * world) :=
  match mount_point_list w !! i with
  | Some mp =>
      let '(a, fs') := method (mfs_file_system mp) in
      Some (a, after_method w i mp fs')
  | None => None
  end.

(** [vfs::read] *)
Definition read (fd : nat) (buffer : list ascii) (count offset : Z)
    (w : world) : option ((Z * list ascii) * world) :=
  if negb (has_handle w fd) then
    Some ((- ERROR_INVALID_FILE_DESCRIPTOR, buffer), w)
  else
    base_path ← get_handle w fd;
    if path_empty base_path then
      Some ((- ERROR_INVALID_FILE_PATH, buffer), w)
    else
      let i := get_fs (mount_point_list w) base_path in
      fs ← mount_point_list w !! i;
      let fs_path := get_fs_path base_path fs in
      '(r, w) ← invoke i (CallRead fs_path count offset)
                  (fs_read fs_path count offset) w;
      let '(result, data) := r in
      let buffer := store_bytes buffer 0 data in
      let read := Z.of_nat (length data) in
      if 0 <? result then Some ((- result, buffer), w)
      else Some ((to_int64 read, buffer), w).

(** [vfs::write] *)
Definition write (fd : nat) (buffer : list ascii) (count offset : Z)
    (w : world) : option (Z * world) :=
  if negb (has_handle w fd) then Some (- ERROR_INVALID_FILE_DESCRIPTOR, w)
  else
    base_path ← get_handle w fd;
    if path_empty base_path then Some (- ERROR_INVALID_FILE_PATH, w)
    else
      let i := get_fs (mount_point_list w) base_path in
      fs ← mount_point_list w !! i;
      let fs_path := get_fs_path base_path fs in
      '(r, w) ← invoke i (CallWrite fs_path count offset)
                  (fs_write fs_path buffer count offset) w;
      let '(result, written) := r in
      if 0 <? result then Some (- result, w)
      else Some (to_int64 written, w).

(** [vfs::clear] *)
Definition clear (fd : nat) (count offset : Z) (w : world)
    : option (Z * world) :=
  if negb (has_handle w fd) then Some (- ERROR_INVALID_FILE_DESCRIPTOR, w)
  else
    base_path ← get_handle w fd;
    if path_empty base_path then Some (- ERROR_INVALID_FILE_PATH, w)
    else
      let i := get_fs (mount_point_list w) base_path in
      fs ← mount_point_list w !! i;
      let fs_path := get_fs_path base_path fs in
      '(r, w) ← invoke_unlogged i (fs_clear fs_path count offset) w;
      let '(result, written) := r in
      if 0 <? result then Some (- result, w)
      else Some (to_int64 written, w).

(** [vfs::truncate] *)
Definition truncate (fd : nat) (size : Z) (w : world) : option (Z * world) :=
  if negb (has_handle w fd) then Some (- ERROR_INVALID_FILE_DESCRIPTOR, w)
  else
    base_path ← get_handle w fd;
    if path_empty base_path then Some (- ERROR_INVALID_FILE_PATH, w)
    else
      let i := get_fs (mount_point_list w) base_path in
      fs ← mount_point_list w !! i;
      let fs_path := get_fs_path base_path fs in
      '(result, w) ← invoke_unlogged i (fs_truncate fs_path size) w;
      Some (if 0 <? result then - result else 0, w).

(** *** Sequences of calls *)

(** The fourteen operations of the facade that take a descriptor or a path.
    Not among them: [init] and the form of [mount] that takes strings, which
    append to the registry without a check; [close], whose only effect is
    the [release_handle] of the scheduler, which is not part of the sources;
    and [mounts], which only reads the registry. *)
Inductive facade_call :=
| DoMountFd (type : partition_type) (mp_fd dev_fd : nat)
| DoStatfs (mp : string) (info : statfs_info)
| DoOpen (file_path : string) (flags : Z)
| DoMkdir (file_path : string)
| DoRm (file_path : string)
| DoStat (fd : nat) (info : stat_info)
| DoRead (fd : nat) (buffer : list ascii) (count offset : Z)
| DoDirectRead (file_path : string) (buffer : list ascii) (count offset : Z)
| DoWrite (fd : nat) (buffer : list ascii) (count offset : Z)
| DoClear (fd : nat) (count offset : Z)
| DoDirectWrite (file_path : string) (buffer : list ascii) (count offset : Z)
| DoTruncate (fd : nat) (size : Z)
| DoDirectReadString (file_path : string) (content : std_string)
| DoEntries (fd : nat) (buffer : list ascii) (size : Z).

(** The status word a call returns and the world it leaves. *)
Definition run (c : facade_call) (w : world) : option (Z * world) :=
  match c with
  | DoMountFd type mp_fd dev_fd => mount_fd type mp_fd dev_fd w
  | DoStatfs mp info => '(r, w) ← statfs mp info w; Some (fst r, w)
  | DoOpen file_path flags => open file_path flags w
  | DoMkdir file_path => mkdir file_path w
  | DoRm file_path => rm file_path w
  | DoStat fd info => '(r, w) ← stat fd info w; Some (fst r, w)
  | DoRead fd buffer count offset =>
      '(r, w) ← read fd buffer count offset w; Some (fst r, w)
  | DoDirectRead file_path buffer count offset =>
      '(r, w) ← direct_read file_path buffer count offset w; Some (fst r, w)
  | DoWrite fd buffer count offset => write fd buffer count offset w
  | DoClear fd count offset => clear fd count offset w
  | DoDirectWrite file_path buffer count offset =>
      direct_write file_path buffer count offset w
  | DoTruncate fd size => truncate fd size w
  | DoDirectReadString file_path content =>
      '(r, w) ← direct_read_string file_path content w; Some (fst r, w)
  | DoEntries fd buffer size =>
      '(r, w) ← entries fd buffer size w; Some (fst r, w)
  end.

Fixpoint run_all (cs : list facade_call) (w : world) : option world :=
  match cs with
  | [] => Some w
  | c :: cs' => '(_, w) ← run c w; run_all cs' w
  end.

(** Modelled from the spec: [sub_path(k)] is the suffix of a path after its
    first [k] segments, for [k] up to the size of the path.  [get_fs_path]
    stays within that range when the mount [get_fs] selects has no more
    segments than the path. *)
Definition resolves_in_range (w : world) (b : path) : bool :=
  match mount_point_list w !! get_fs (mount_point_list w) b with
  | Some fs => (length (mp_vec fs) <=? length (names b))%nat
  | None => false
  end.

(** The path of which a call takes the backend-local part with
    [get_fs_path], if it gets that far: [statfs] and the descriptor form of
    [mount] never do, and the other calls return before it on an empty
    string, an unknown descriptor or, for the transfers, a descriptor
    without segments. *)
Definition local_path_of (c : facade_call) (w : world) : option path :=
  let of_string file_path :=
    if String.eqb file_path "" then None else Some (get_path w file_path) in
  let of_handle fd :=
    if has_handle w fd then get_handle w fd else None in
  let of_transfer fd :=
    base_path ← of_handle fd;
    if path_empty base_path then None else Some base_path in
  match c with
  | DoMountFd _ _ _ | DoStatfs _ _ => None
  | DoOpen file_path _ | DoMkdir file_path | DoRm file_path =>
      of_string file_path
  | DoStat fd _ | DoEntries fd _ _ => of_handle fd
  | DoRead fd _ _ _ | DoWrite fd _ _ _ | DoClear fd _ _ | DoTruncate fd _ =>
      of_transfer fd
  | DoDirectRead file_path _ _ _ | DoDirectWrite file_path _ _ _
  | DoDirectReadString file_path _ => Some (get_path w file_path)
  end.

Definition in_range (c : facade_call) (w : world) : bool :=
  match local_path_of c w with
  | Some b => resolves_in_range w b
  | None => true
  end.

(** Every call of the sequence is in range on the world the calls before it
    left. *)
Fixpoint run_all_in_range (cs : list facade_call) (w : world) : Prop :=
  match cs with
  | [] => True
  | c :: cs' =>
      in_range c w = true
      /\ forall r w', run c w = Some (r, w') -> run_all_in_range cs' w'
  end.

(** What identifies a mount: everything but the state of its backend. *)
Definition mount_info (mp : mounted_fs)
    : partition_type * string * string * list string :=
  (fs_type mp, device mp, mount_point mp, mp_vec mp).

(** The state [init] establishes and the calls above keep: a canonical
    registry with distinct segments whose first entry is the root mount,
    and valid paths behind the working directory and the descriptors. *)
Definition system_invariant (w : world) : Prop :=
  registry_invariant (mount_point_list w)
  /\ map mp_vec (mount_point_list w) !! 0%nat = Some []
  /\ valid_path (working_directory w)
  /\ Forall valid_path (handles w).

End Transfers.

(** The in-memory backend has no ranges to clear and no sizes to change: the
    two methods succeed on the files it holds. *)
Definition mem_clear (p : path) (count offset : Z) (fs : MemFs.t)
    : (Z * Z) * MemFs.t :=
  match MemFs.find_node p fs with
  | Some _ => ((0%Z, count), fs)
  | None => ((MemFs.not_exists, 0%Z), fs)
  end.

Definition mem_truncate (p : path) (size : Z) (fs : MemFs.t) : Z * MemFs.t :=
  match MemFs.find_node p fs with
  | Some _ => (0%Z, fs)
  | None => (MemFs.not_exists, fs)
  end.

Definition mem_backend_ext : @BackendExt MemFs.backend :=
  @Build_BackendExt MemFs.backend mem_clear mem_truncate.

(** The registry and the working directory are those of [w]. *)
Definition same_registry `{Backend} (w w' : world) : Prop :=
  map mount_info (mount_point_list w') = map mount_info (mount_point_list w)
  /\ working_directory w' = working_directory w.

Section SampleWorldsMore.

#[local] Existing Instance sample_constants.
#[local] Existing Instance MemFs.backend.
#[local] Existing Instance mem_backend_ext.

(** The booted system after [/sys/] was mounted a second time by the form of
    [mount] that takes strings. *)
Definition shadowed_world : world :=
  snd (mount FAT32 "/sys/" "/dev/hda2" booted_world).

(** A registry in which the sysfs was mounted before the root. *)
Definition sys_first_world : world :=
  snd (mount FAT32 "/" "/dev/hda1" (snd (mount SYSFS "/sys/" "none" boot_world))).

(** A session on the booted system: two files are created, [/mnt/usb/] is
    mounted on the first with the second as device, and a file is created
    and written below the new mount. *)
Definition session : list facade_call :=
  [DoOpen "/mnt/usb" 1; DoOpen "/dev/sdb" 1; DoMountFd FAT32 0 1;
   DoOpen "/mnt/usb/notes" 1; DoWrite 2 (chars "hi") 2 0; DoStat 2 (StatInfo 0 0 0 0 0);
   DoRm "/nope"; DoTruncate 2 0].

(** The booted system after the first two calls of the session: descriptor 0
    refers to [/mnt/usb], descriptor 1 to [/dev/sdb]. *)
Definition usb_world : world :=
  default booted_world (run_all (take 2 session) booted_world).

End SampleWorldsMore.

(** * Properties *)

(** ** Words *)

Section WordFacts.

Local Open Scope Z_scope.

Lemma wrap64_small z : 0 <= z < modulus -> wrap64 z = z.
Proof. intros Hz. unfold wrap64. now apply Z.mod_small. Qed.

Lemma to_int64_small z : z < half_modulus -> to_int64 z = z.
Proof.
  intros Hz. unfold to_int64.
  destruct (Z.ltb_spec z half_modulus); [reflexivity | lia].
Qed.

Lemma half_lt_modulus : half_modulus < modulus.
Proof. reflexivity. Qed.

End WordFacts.

(** ** The longest-prefix scan *)

Section LookupFacts.

Lemma segments_match_of_prefix (v b : list string) :
  v `prefix_of` b -> segments_match v b = true.
Proof.
  intros [k ->]. induction v as [| x v IH]; simpl; [reflexivity |].
  now rewrite String.eqb_refl.
Qed.

(** A match of the inner loop is a prefix only when the mount is no longer
    than the path: the loop itself does not look at the sizes. *)
Lemma segments_match_prefix (v : list string) : forall b,
  segments_match v b = true -> length v <= length b -> v `prefix_of` b.
Proof.
  induction v as [| x v IH]; intros b Hm Hle; [apply prefix_nil |].
  destruct b as [| y b]; [simpl in Hle; lia |].
  simpl in Hm. destruct (String.eqb_spec x y) as [-> | _]; [| discriminate].
  apply prefix_cons. apply IH; [exact Hm | simpl in Hle; lia].
Qed.

(** When the path ends first, the inner loop reports a match although the
    path is a strict prefix of the mount. *)
Lemma segments_match_overlong (v : list string) : forall b,
  segments_match v b = true -> length b < length v ->
  b `prefix_of` v /\ ~ v `prefix_of` b.
Proof.
  intros b Hm Hlt. split.
  - revert b Hm Hlt. induction v as [| x v IH]; intros b Hm Hlt;
      [simpl in Hlt; lia |].
    destruct b as [| y b]; [apply prefix_nil |].
    simpl in Hm. destruct (String.eqb_spec x y) as [-> | _]; [| discriminate].
    apply prefix_cons. apply IH; [exact Hm | simpl in Hlt; lia].
  - intros Hpre. apply prefix_length in Hpre. lia.
Qed.

(** The state of the outer loop after the scan of [vecs], whose head has
    index [i]: [best] bounds every match, and it is either left as it was or
    the size of the first match that reaches it. *)
Lemma scan_mounts_spec (b : list string) (vecs : list (list string)) :
  forall i best best_match,
    let r := scan_mounts vecs b i best best_match in
    best <= fst r
    /\ (forall v, v ∈ vecs -> segments_match v b = true -> length v <= fst r)
    /\ ((r = (best, best_match))
        \/ (exists k v,
              vecs !! k = Some v /\ snd r = i + k
              /\ segments_match v b = true /\ length v = fst r
              /\ best < fst r
              /\ forall j v', j < k -> vecs !! j = Some v' ->
                   segments_match v' b = true -> length v' < fst r)).
Proof.
  induction vecs as [| v vecs IH]; intros i best best_match; cbn zeta.
  - simpl. split; [lia |]. split; [| now left].
    intros v Hin. inversion Hin.
  - cbn [scan_mounts].
    destruct (segments_match v b && (best <? length v)%nat) eqn:Htest.
    + apply andb_true_iff in Htest as [Hm Hlt]. apply Nat.ltb_lt in Hlt.
      specialize (IH (S i) (length v) i). cbn zeta in IH.
      destruct IH as (Hle & Hall & Hcase).
      split; [lia |]. split.
      * intros v' Hin Hv'. apply elem_of_cons in Hin as [-> | Hin];
          [lia | now apply Hall].
      * right. destruct Hcase as [Hsame | (k & v' & Hk & Hidx & Hmv & Hlen & Hbest & Hfirst)].
        -- exists 0, v. rewrite Hsame. simpl.
           repeat split; try easy; try lia.
        -- exists (S k), v'. simpl. repeat split; try easy; try lia.
           intros j v'' Hj Hlook Hmatch. destruct j as [| j].
           ++ simpl in Hlook. injection Hlook as <-. lia.
           ++ simpl in Hlook. apply (Hfirst j v''); [lia | easy | easy].
    + specialize (IH (S i) best best_match). cbn zeta in IH.
      destruct IH as (Hle & Hall & Hcase).
      split; [lia |]. split.
      * intros v' Hin Hv'. apply elem_of_cons in Hin as [-> | Hin];
          [| now apply Hall].
        rewrite Hv' in Htest. simpl in Htest. apply Nat.ltb_ge in Htest. lia.
      * destruct Hcase as [Hsame | (k & v' & Hk & Hidx & Hmv & Hlen & Hbest & Hfirst)];
          [now left | right].
        exists (S k), v'. simpl. repeat split; try easy; try lia.
        intros j v'' Hj Hlook Hmatch. destruct j as [| j].
        -- simpl in Hlook. injection Hlook as <-.
           rewrite Hmatch in Htest. simpl in Htest.
           apply Nat.ltb_ge in Htest. lia.
        -- simpl in Hlook. apply (Hfirst j v''); [lia | easy | easy].
Qed.

Lemma find_root_spec (vecs : list (list string)) : forall i,
  match find_root vecs i with
  | Some r => exists k, r = i + k /\ vecs !! k = Some []
  | None => [] ∉ vecs
  end.
Proof.
  induction vecs as [| v vecs IH]; intros i; simpl.
  - intros Hin. inversion Hin.
  - destruct v as [| x v].
    + exists 0. split; [lia | reflexivity].
    + specialize (IH (S i)). destruct (find_root vecs (S i)) as [r |].
      * destruct IH as (k & -> & Hk). exists (S k). split; [lia | exact Hk].
      * intros Hin. apply elem_of_cons in Hin as [Heq | Hin];
          [discriminate | contradiction].
Qed.

(** The lookup is right whenever the root mount was registered first and no
    mount that the inner loop matches is longer than the path: the selected
    mount is then a longest one among those whose segments are a prefix of
    the path. *)
Theorem get_fs_longest_prefix (vecs : list (list string)) (b : path) :
  vecs !! 0 = Some [] ->
  (forall v, v ∈ vecs -> segments_match v (names b) = true ->
             length v <= length (names b)) ->
  longest_prefix_at vecs (names b) (get_fs_index vecs b).
Proof.
  intros Hroot Hfit. unfold get_fs_index.
  destruct (is_root b) eqn:Hb.
  - pose proof (find_root_spec vecs 0) as Hfind.
    destruct (find_root vecs 0) as [r |].
    + destruct Hfind as (k & -> & Hk). exists []. simpl.
      split; [exact Hk |]. split; [apply prefix_nil |].
      intros v' _ Hpre. unfold is_root, path_empty in Hb.
      apply andb_true_iff in Hb as [_ Hb].
      destruct (names b); [| discriminate].
      apply prefix_nil_inv in Hpre. now subst v'.
    + exfalso. apply Hfind. now apply (list_elem_of_lookup_2 _ 0).
  - pose proof (scan_mounts_spec (names b) vecs 0 0 0) as Hscan.
    cbn zeta in Hscan.
    destruct Hscan as (_ & Hall & [Hsame | (k & v & Hk & Hidx & Hm & Hlen & _)]).
    + rewrite Hsame in *. simpl in *. exists []. split; [exact Hroot |].
      split; [apply prefix_nil |].
      intros v' Hin Hpre. simpl.
      apply Hall; [exact Hin | now apply segments_match_of_prefix].
    + rewrite Hidx. simpl. exists v. split; [exact Hk |].
      assert (Hin : v ∈ vecs) by now apply (list_elem_of_lookup_2 _ k).
      split; [apply segments_match_prefix; [exact Hm | now apply Hfit] |].
      intros v' Hin' Hpre. rewrite Hlen.
      apply Hall; [exact Hin' | now apply segments_match_of_prefix].
Qed.

(** Under invariant (b) the selected mount is the only longest one. *)
Lemma longest_prefix_unique (vecs : list (list string)) (b : list string) i j :
  NoDup vecs ->
  longest_prefix_at vecs b i -> longest_prefix_at vecs b j -> i = j.
Proof.
  intros Hnd (v & Hv & Hpv & Hmaxv) (u & Hu & Hpu & Hmaxu).
  assert (Hvin : v ∈ vecs) by now apply (list_elem_of_lookup_2 _ i).
  assert (Huin : u ∈ vecs) by now apply (list_elem_of_lookup_2 _ j).
  pose proof (Hmaxv u Huin Hpu). pose proof (Hmaxu v Hvin Hpv).
  assert (Heq : v = u).
  { destruct Hpv as [kv ->]. destruct Hpu as [ku Hku].
    apply (f_equal (take (length v))) in Hku.
    rewrite take_app_length in Hku.
    replace (length v) with (length u) in Hku by lia.
    now rewrite take_app_length in Hku. }
  subst u. apply (NoDup_lookup vecs i j v Hnd Hv Hu).
Qed.

(** The path is then the segments of the selected mount followed by the
    backend-local path. *)
Lemma sub_path_of_prefix (v : list string) (b : path) :
  v `prefix_of` names b -> names b = v ++ names (sub_path b (length v)).
Proof. intros [k Hk]. simpl. rewrite Hk. now rewrite drop_app_length. Qed.

End LookupFacts.

(** ** Splitting and joining *)

Section SplitFacts.

Lemma append_cons c (s t : string) : String c s +:+ t = String c (s +:+ t).
Proof. reflexivity. Qed.

Lemma append_nil_l (s : string) : "" +:+ s = s.
Proof. reflexivity. Qed.

Lemma append_nil_r (s : string) : s +:+ "" = s.
Proof.
  induction s as [| c s IH]; [reflexivity |]. now rewrite append_cons, IH.
Qed.

Lemma append_assoc (s1 s2 s3 : string) :
  (s1 +:+ s2) +:+ s3 = s1 +:+ (s2 +:+ s3).
Proof.
  induction s1 as [| c s1 IH]; [reflexivity |].
  now rewrite !append_cons, IH.
Qed.

(** A stretch without separator is added to the segment being read. *)
Lemma split_from_segment (seg : string) : forall rest cur,
  "/"%char ∉ chars seg ->
  split_from (seg +:+ rest) "/" cur = split_from rest "/" (cur +:+ seg).
Proof.
  induction seg as [| c seg IH]; intros rest cur Hfree.
  - now rewrite append_nil_l, append_nil_r.
  - rewrite append_cons. cbn [split_from].
    destruct (Ascii.eqb_spec c "/") as [-> | _].
    + exfalso. apply Hfree. apply elem_of_cons. now left.
    + rewrite IH.
      * rewrite append_assoc. reflexivity.
      * intros Hin. apply Hfree. apply elem_of_cons. now right.
Qed.

Lemma join_from (segs : list string) : forall mp,
  fold_left (fun mp seg => (mp +:+ seg) +:+ "/") segs mp = mp +:+ joined segs.
Proof.
  induction segs as [| seg segs IH]; intros mp; cbn [fold_left joined fold_right].
  - now rewrite append_nil_r.
  - rewrite IH. fold (joined segs). now rewrite !append_assoc.
Qed.

Lemma split_joined (segs : list string) :
  Forall valid_segment segs -> split_from (joined segs) "/" "" = segs.
Proof.
  induction 1 as [| seg segs [Hne Hfree] _ IH]; [reflexivity |].
  cbn [joined fold_right]. fold (joined segs).
  rewrite split_from_segment by exact Hfree.
  rewrite append_cons, !append_nil_l. cbn [split_from].
  rewrite Ascii.eqb_refl.
  apply String.eqb_neq in Hne. rewrite Hne. now rewrite IH.
Qed.

(** Splitting the string built from a valid path gives its segments back. *)
Lemma split_join_path (p : path) :
  valid_path p -> std_split (join_path p) "/" = names p.
Proof.
  intros Hvalid. unfold std_split, join_path. rewrite join_from.
  rewrite append_cons, append_nil_l. cbn [split_from].
  rewrite Ascii.eqb_refl, String.eqb_refl.
  now apply split_joined.
Qed.

Lemma chars_append (s t : string) : chars (s +:+ t) = chars s ++ chars t.
Proof.
  unfold chars. induction s as [| c s IH]; [reflexivity |].
  rewrite append_cons. cbn [list_ascii_of_string app]. now rewrite IH.
Qed.

(** The segments [std_split] produces are valid. *)
Lemma split_from_valid (s : string) : forall cur,
  "/"%char ∉ chars cur -> Forall valid_segment (split_from s "/" cur).
Proof.
  induction s as [| c s IH]; intros cur Hcur; cbn [split_from].
  - destruct (String.eqb_spec cur ""); constructor; [easy | constructor].
  - destruct (Ascii.eqb_spec c "/") as [-> | Hne].
    + assert (Hnil : "/"%char ∉ chars "") by (intros Hin; inversion Hin).
      destruct (String.eqb_spec cur ""); [now apply IH |].
      constructor; [easy | now apply IH].
    + apply IH. rewrite chars_append. intros Hin.
      apply elem_of_app in Hin as [Hin | Hin]; [contradiction |].
      apply list_elem_of_singleton in Hin. congruence.
Qed.

Lemma std_split_valid (s : string) : Forall valid_segment (std_split s "/").
Proof. apply split_from_valid. intros Hin. inversion Hin. Qed.

End SplitFacts.

(** ** The lookup on the nested mount *)

Section NestedMount.

#[local] Existing Instance sample_constants.
#[local] Existing Instance MemFs.backend.

Lemma nested_world_registry :
  map mp_vec (mount_point_list nested_world)
  = [[]; ["sys"]; ["dev"]; ["proc"]; ["a"; "b"]].
Proof. vm_compute. reflexivity. Qed.

(** C1.  With [/a/b/] mounted next to the four boot mounts, [get_fs] selects
    the mount [/a/b/] for the path [/a]: the inner loop stops at the end of
    the path without a mismatch, and the size of the mount is never compared
    with the size of the path.  The segments of the selected mount are not a
    prefix of the path, while those of the root mount are: the mount the
    claim describes is the root one, at index 0. *)
Theorem get_fs_selects_overlong_mount :
  let vecs := map mp_vec (mount_point_list nested_world) in
  let B := path_of_string "/a" in
  get_fs (mount_point_list nested_world) B = 4%nat
  /\ vecs !! 4%nat = Some ["a"; "b"]
  /\ ~ ["a"; "b"] `prefix_of` names B
  /\ ~ longest_prefix_at vecs (names B) 4
  /\ longest_prefix_at vecs (names B) 0.
Proof.
  cbv zeta. rewrite nested_world_registry.
  assert (Hnot : ~ ["a"; "b"] `prefix_of` names (path_of_string "/a")).
  { intros [k Hk]. vm_compute in Hk. discriminate Hk. }
  split; [vm_compute; reflexivity |].
  split; [reflexivity |].
  split; [exact Hnot |].
  split.
  - intros (v & Hv & Hpre & _). simpl in Hv. injection Hv as <-. auto.
  - exists []. split; [reflexivity |]. split; [apply prefix_nil |].
    intros v' Hin Hpre.
    assert (Hv' : v' = [] \/ v' <> []) by (destruct v'; [left | right]; easy).
    destruct Hv' as [-> | Hne]; [simpl; lia |].
    exfalso. destruct Hpre as [k Hk]. vm_compute in Hk.
    repeat (apply elem_of_cons in Hin as [-> | Hin];
            [try congruence; try discriminate Hk |]).
    inversion Hin.
Qed.

(** C2.  In the same state, with [m] the mount [get_fs] selects for [/a],
    the segments of [/a] are not those of [m] followed by the segments of the
    backend-local path, whatever [sub_path] returns for a count beyond the
    size of the path. *)
Theorem get_fs_path_not_a_suffix :
  let B := path_of_string "/a" in
  exists m,
    mount_point_list nested_world !! get_fs (mount_point_list nested_world) B
    = Some m
    /\ mp_vec m = ["a"; "b"]
    /\ names B <> mp_vec m ++ names (get_fs_path B m)
    /\ forall local : list string, names B <> mp_vec m ++ local.
Proof.
  cbv zeta.
  destruct (mount_point_list nested_world
              !! get_fs (mount_point_list nested_world) (path_of_string "/a"))
    as [m |] eqn:Hm; [| vm_compute in Hm; discriminate Hm].
  exists m. split; [reflexivity |].
  assert (Hvec : mp_vec m = ["a"; "b"]).
  { vm_compute in Hm. injection Hm as <-. reflexivity. }
  assert (Hall : forall local : list string,
             names (path_of_string "/a") <> mp_vec m ++ local).
  { intros local Heq. rewrite Hvec in Heq. vm_compute in Heq.
    discriminate Heq. }
  split; [exact Hvec |]. split; [apply Hall | exact Hall].
Qed.

End NestedMount.

(** ** Buffers *)

Section BufferFacts.

Lemma store_bytes_skip (cs : list ascii) : forall a b pos,
  length a <= pos ->
  store_bytes (a ++ b) pos cs = a ++ store_bytes b (pos - length a) cs.
Proof.
  induction cs as [| c cs IH]; intros a b pos Hle; simpl; [reflexivity |].
  rewrite insert_app_r_alt by exact Hle.
  rewrite IH by lia.
  replace (S pos - length a) with (S (pos - length a)) by lia.
  reflexivity.
Qed.

Lemma store_bytes_here (cs : list ascii) : forall old b pos,
  pos = 0 -> length old = length cs ->
  store_bytes (old ++ b) pos cs = cs ++ b.
Proof.
  induction cs as [| c cs IH]; intros old b pos -> Hlen.
  - destruct old; [reflexivity | discriminate Hlen].
  - destruct old as [| o old]; [discriminate Hlen |].
    simpl. change (c :: old ++ b) with ([c] ++ old ++ b).
    rewrite store_bytes_skip by (simpl; lia).
    simpl. f_equal. apply IH; [reflexivity | now injection Hlen].
Qed.

Lemma insert_as_store (buffer : list ascii) pos c :
  <[pos := c]> buffer = store_bytes buffer pos [c].
Proof. reflexivity. Qed.

(** Every list at least [n] long splits after [n] elements. *)
Lemma split_chunk (l : list ascii) n :
  n <= length l -> exists a b, l = a ++ b /\ length a = n.
Proof.
  intros Hn. exists (take n l), (drop n l).
  split; [symmetry; apply take_drop | rewrite length_take; lia].
Qed.

Lemma chars_length s : length (chars s) = String.length s.
Proof.
  unfold chars. induction s as [| c s IH]; simpl; [reflexivity |].
  now rewrite IH.
Qed.

Lemma encode_le_length n : forall z, length (encode_le n z) = n.
Proof. induction n as [| n IH]; intros z; simpl; [| rewrite IH]; reflexivity. Qed.

Lemma byte_of_value z :
  Z.of_N (N_of_ascii (byte_of z)) = (z mod 256)%Z.
Proof.
  unfold byte_of.
  assert (Hr : (0 <= z mod 256 < 256)%Z) by (apply Z.mod_pos_bound; lia).
  rewrite N_ascii_embedding by lia. lia.
Qed.

Lemma decode_encode_le n : forall z,
  decode_le (encode_le n z) = (z mod 256 ^ Z.of_nat n)%Z.
Proof.
  induction n as [| n IH]; intros z.
  - simpl. now rewrite Z.mod_1_r.
  - cbn [encode_le decode_le]. rewrite IH, byte_of_value.
    rewrite Nat2Z.inj_succ, Z.pow_succ_r by lia.
    rewrite Z.rem_mul_r by lia. lia.
Qed.

Lemma decode_encode_word z :
  (0 <= z < modulus)%Z -> decode_le (encode_le 8 z) = z.
Proof.
  intros Hz. rewrite decode_encode_le.
  apply Z.mod_small. exact Hz.
Qed.

Lemma load_word_at (pre post : list ascii) pos z :
  pos = length pre -> (0 <= z < modulus)%Z ->
  load_word (pre ++ encode_le 8 z ++ post) pos = z.
Proof.
  intros -> Hz. unfold load_word.
  rewrite drop_app_length.
  rewrite <- (encode_le_length 8 z) at 1.
  rewrite take_app_length. now apply decode_encode_word.
Qed.

Lemma load_word_skip (a b : list ascii) pos :
  length a <= pos -> load_word (a ++ b) pos = load_word b (pos - length a).
Proof. intros Hle. unfold load_word. now rewrite drop_app_ge. Qed.

Lemma load_word_here (b : list ascii) pos z :
  pos = 0 -> (0 <= z < modulus)%Z -> load_word (encode_le 8 z ++ b) pos = z.
Proof. intros -> Hz. now apply (load_word_at [] b 0 z). Qed.

Lemma wrap64_add_l a b : wrap64 (wrap64 a + b) = wrap64 (a + b).
Proof. unfold wrap64. apply Zplus_mod_idemp_l. Qed.

End BufferFacts.

(** ** The directory listing *)

Ltac chunk_length :=
  rewrite ?length_app, ?encode_le_length, ?chars_length; cbn [length]; lia.

Ltac store_chunk :=
  repeat (rewrite store_bytes_skip by chunk_length);
  rewrite store_bytes_here by chunk_length.

Section EntriesFacts.

Context `{Constants}.

Local Open Scope Z_scope.

Lemma entries_loop_cons (f : file) rest position buffer :
  entries_loop (f :: rest) position buffer
  = entries_loop rest
      (match rest with
       | [] => position
       | _ => wrap64 (position + wrap64 (name_size f + 1 + 3 * 8))
       end)
      (entry_stores f
         (match rest with [] => 0 | _ => wrap64 (name_size f + 1 + 3 * 8) end)
         (Z.to_nat position) buffer).
Proof. destruct rest; reflexivity. Qed.

Lemma entry_image_length f last :
  Z.of_nat (length (entry_image f last)) = name_size f + 1 + 3 * 8.
Proof. unfold entry_image, name_size. chunk_length. Qed.

Lemma entry_stores_image (f : file) offset_next (pre old post : list ascii)
    entry :
  entry = length pre ->
  Z.of_nat (length old) = name_size f + 1 + 3 * 8 ->
  entry_stores f offset_next entry (pre ++ old ++ post)
  = pre
    ++ (encode_le 8 offset_next ++ encode_le 8 0 ++ encode_le 8 (name_size f)
        ++ chars (file_name f) ++ [NUL])
    ++ post.
Proof.
  intros -> Hold. unfold name_size in Hold.
  destruct (split_chunk old 8) as (o0 & old1 & -> & H0); [lia |].
  rewrite length_app in Hold.
  destruct (split_chunk old1 8) as (o1 & old2 & -> & H1); [lia |].
  rewrite length_app in Hold.
  destruct (split_chunk old2 8) as (o2 & old3 & -> & H2); [lia |].
  rewrite length_app in Hold.
  destruct (split_chunk old3 (String.length (file_name f)))
    as (o3 & o4 & -> & H3); [lia |].
  rewrite length_app in Hold.
  unfold entry_stores, store_word, entry_type, entry_length,
    entry_offset_next, entry_name.
  cbv zeta. rewrite insert_as_store.
  rewrite <- !app_assoc.
  do 5 store_chunk.
  reflexivity.
Qed.

Lemma listing_image_length files :
  Z.of_nat (length (listing_image files)) = entries_written_size files.
Proof.
  induction files as [| f rest IH]; [reflexivity |].
  cbn [listing_image entries_written_size fold_right].
  rewrite length_app, Nat2Z.inj_add, entry_image_length.
  fold (entries_written_size rest). lia.
Qed.

Lemma entries_written_size_nonneg files : 0 <= entries_written_size files.
Proof. rewrite <- listing_image_length. lia. Qed.

(** The second loop writes the image of the listing over the bytes at
    [position] and touches nothing else. *)
Lemma entries_loop_image (files : list file) :
  forall (pre old post : list ascii) position,
    position = Z.of_nat (length pre) ->
    length old = length (listing_image files) ->
    Z.of_nat (length pre + length old) < modulus ->
    entries_loop files position (pre ++ old ++ post)
    = pre ++ listing_image files ++ post.
Proof.
  induction files as [| f rest IH]; intros pre old post position Hpos Hold Hlt.
  - destruct old; [reflexivity | discriminate Hold].
  - rewrite entries_loop_cons.
    cbn [listing_image] in Hold |- *. rewrite length_app in Hold.
    destruct (split_chunk old (length (entry_image f (is_last rest))))
      as (old1 & old2 & -> & Hold1); [lia |].
    rewrite length_app in Hold.
    pose proof (entry_image_length f (is_last rest)) as Himg.
    assert (Hname : 0 <= name_size f) by (unfold name_size; lia).
    rewrite <- (app_assoc old1 old2 post).
    rewrite entry_stores_image; [| subst position; lia | lia].
    destruct rest as [| g rest].
    + cbn [listing_image] in Hold. rewrite length_nil in Hold.
      destruct old2; [| cbn [length] in Hold; lia].
      cbn [entries_loop listing_image is_last entry_image].
      now rewrite !app_nil_r.
    + set (rest' := g :: rest) in *.
      change (is_last rest') with false in *. cbv iota.
      rewrite length_app in Hlt.
      rewrite (wrap64_small (name_size f + 1 + 3 * 8)) by lia.
      rewrite wrap64_small by lia.
      rewrite (app_assoc pre _ (old2 ++ post)).
      rewrite (IH (pre ++ entry_image f false) old2 post).
      * unfold entry_image. now rewrite <- !app_assoc.
      * rewrite length_app. lia.
      * lia.
      * rewrite length_app. lia.
Qed.

Lemma entries_total_size_from files : forall acc,
  fold_left
    (fun total_size f =>
       wrap64 (total_size + (sizeof_directory_entry + name_size f)))
    files (wrap64 acc)
  = wrap64 (acc + entries_required_size files).
Proof.
  induction files as [| f rest IH]; intros acc.
  - simpl. now rewrite Z.add_0_r.
  - cbn [fold_left entries_required_size fold_right].
    fold (entries_required_size rest).
    rewrite wrap64_add_l, IH. f_equal. lia.
Qed.

Lemma entries_total_size_wrap files :
  entries_total_size files = wrap64 (entries_required_size files).
Proof. apply (entries_total_size_from files 0). Qed.

Lemma entries_written_le_required files :
  entries_written_size files <= entries_required_size files.
Proof.
  pose proof sizeof_directory_entry_min as Hmin.
  induction files as [| f rest IH]; [reflexivity |].
  cbn [entries_written_size entries_required_size fold_right].
  fold (entries_written_size rest). fold (entries_required_size rest). lia.
Qed.

(** The sum returned exceeds the bytes written by the padding of each
    record. *)
Lemma entries_required_minus_written files :
  entries_required_size files - entries_written_size files
  = Z.of_nat (length files) * (sizeof_directory_entry - (3 * 8 + 1)).
Proof.
  induction files as [| f rest IH]; [reflexivity |].
  cbn [entries_written_size entries_required_size fold_right length].
  fold (entries_written_size rest). fold (entries_required_size rest). lia.
Qed.

Ltac load_chunk :=
  repeat (rewrite load_word_skip by chunk_length);
  rewrite load_word_here by (try chunk_length; lia).

(** A reader that follows [offset_next] from the start of the image finds the
    entries of the listing, the last one with a zero [offset_next]. *)
Lemma read_entries_image (files : list file) :
  forall (pre post : list ascii) fuel,
    files <> [] ->
    (length files <= fuel)%nat ->
    Z.of_nat (length (listing_image files)) < modulus ->
    read_entries fuel (pre ++ listing_image files ++ post) (length pre)
    = expected_entries files.
Proof.
  induction files as [| f rest IH]; intros pre post fuel Hne Hfuel Hlt;
    [congruence |].
  destruct fuel as [| fuel]; [simpl in Hfuel; lia |].
  cbn [listing_image] in Hlt |- *. rewrite length_app in Hlt.
  pose proof (entry_image_length f (is_last rest)) as Himg.
  assert (Hname : 0 <= name_size f) by (unfold name_size; lia).
  assert (Hnm : Z.to_nat (name_size f) = String.length (file_name f))
    by (unfold name_size; lia).
  assert (Hnext : 0 <= (if is_last rest then 0 else name_size f + 1 + 3 * 8)
                  < modulus) by (destruct (is_last rest); [easy | lia]).
  assert (Hzero : 0 <= 0 < modulus) by easy.
  cbn [read_entries expected_entries].
  unfold entry_offset_next, entry_type, entry_length, entry_name.
  set (next := if is_last rest then 0 else name_size f + 1 + 3 * 8) in *.
  assert (Hloads :
    load_word (pre ++ (entry_image f (is_last rest) ++ listing_image rest)
               ++ post) (length pre + 0) = next
    /\ load_word (pre ++ (entry_image f (is_last rest) ++ listing_image rest)
                  ++ post) (length pre + 8) = 0
    /\ load_word (pre ++ (entry_image f (is_last rest) ++ listing_image rest)
                  ++ post) (length pre + 16) = name_size f
    /\ take (String.length (file_name f))
         (drop (length pre + 24)
            (pre ++ (entry_image f (is_last rest) ++ listing_image rest)
             ++ post))
       = chars (file_name f)).
  { unfold entry_image. fold next. rewrite <- !app_assoc.
    split; [load_chunk; reflexivity |].
    split; [load_chunk; reflexivity |].
    split; [load_chunk; reflexivity |].
    repeat (rewrite drop_app_ge by chunk_length).
    replace (length pre + 24 - length pre - length (encode_le 8 next)
             - length (encode_le 8 0) - length (encode_le 8 (name_size f)))%nat
      with 0%nat by chunk_length.
    rewrite drop_0. apply take_app_length'. symmetry. apply chars_length. }
  destruct Hloads as (-> & -> & -> & Hname_eq).
  rewrite Hnm, Hname_eq.
  f_equal.
  destruct rest as [| g rest].
  - reflexivity.
  - set (rest' := g :: rest) in *.
    change (is_last rest') with false in *. cbv iota in next. subst next.
    destruct (Z.eqb_spec (name_size f + 1 + 3 * 8) 0) as [Hz | _]; [lia |].
    rewrite <- (app_assoc (entry_image f false)).
    rewrite (app_assoc pre (entry_image f false)).
    replace (length pre + Z.to_nat (name_size f + 1 + 3 * 8))%nat
      with (length (pre ++ entry_image f false)) by (rewrite length_app; lia).
    apply IH; [subst rest'; congruence | cbn [length] in Hfuel; lia | lia].
Qed.

End EntriesFacts.

(** ** The mount listing *)

Section MountsFacts.

Context `{Backend}.

Local Open Scope Z_scope.

Lemma mounts_loop_cons (mp : mounted_fs) rest position buffer :
  mounts_loop (mp :: rest) position buffer
  = mounts_loop rest
      (match rest with
       | [] => position
       | _ => wrap64 (position + mount_record_size mp)
       end)
      (mount_stores mp
         (match rest with [] => 0 | _ => mount_record_size mp end)
         (Z.to_nat position) buffer).
Proof. destruct rest; reflexivity. Qed.

Lemma mount_required_size_pos (mp : mounted_fs) : 35 <= mount_required_size mp.
Proof. unfold mount_required_size, sizeof_size_t, str_len. lia. Qed.

Lemma mount_image_length (mp : mounted_fs) last :
  Z.of_nat (length (mount_image mp last)) = mount_required_size mp.
Proof.
  unfold mount_image, mount_required_size, sizeof_size_t, str_len.
  chunk_length.
Qed.

Lemma mount_stores_image (mp : mounted_fs) offset_next
    (pre old post : list ascii) entry :
  entry = length pre ->
  Z.of_nat (length old) = mount_required_size mp ->
  mount_stores mp offset_next entry (pre ++ old ++ post)
  = pre
    ++ (encode_le 8 offset_next
        ++ encode_le 8 (str_len (mount_point mp))
        ++ encode_le 8 (str_len (device mp))
        ++ encode_le 8 (str_len (partition_type_to_string (fs_type mp)))
        ++ chars (mount_point mp) ++ [NUL]
        ++ chars (device mp) ++ [NUL]
        ++ chars (partition_type_to_string (fs_type mp)) ++ [NUL])
    ++ post.
Proof.
  intros -> Hold.
  unfold mount_required_size, sizeof_size_t, str_len in Hold.
  destruct (split_chunk old 8) as (o0 & old1 & -> & H0); [lia |].
  rewrite length_app in Hold.
  destruct (split_chunk old1 8) as (o1 & old2 & -> & H1); [lia |].
  rewrite length_app in Hold.
  destruct (split_chunk old2 8) as (o2 & old3 & -> & H2); [lia |].
  rewrite length_app in Hold.
  destruct (split_chunk old3 8) as (o3 & old4 & -> & H3); [lia |].
  rewrite length_app in Hold.
  destruct (split_chunk old4 (String.length (mount_point mp)))
    as (o4 & old5 & -> & H4); [lia |].
  rewrite length_app in Hold.
  destruct (split_chunk old5 1) as (o5 & old6 & -> & H5); [lia |].
  rewrite length_app in Hold.
  destruct (split_chunk old6 (String.length (device mp)))
    as (o6 & old7 & -> & H6); [lia |].
  rewrite length_app in Hold.
  destruct (split_chunk old7 1) as (o7 & old8 & -> & H7); [lia |].
  rewrite length_app in Hold.
  destruct (split_chunk old8
              (String.length (partition_type_to_string (fs_type mp))))
    as (o8 & o9 & -> & H8); [lia |].
  rewrite length_app in Hold.
  unfold mount_stores, store_word, mp_length_mp, mp_length_dev,
    mp_length_type, mp_offset_next, mp_name.
  cbv zeta. rewrite !insert_as_store.
  rewrite <- !app_assoc.
  do 10 store_chunk.
  reflexivity.
Qed.

Lemma mounts_image_length (l : list mounted_fs) :
  Z.of_nat (length (mounts_image l)) = mounts_required_size l.
Proof.
  induction l as [| mp rest IH]; [reflexivity |].
  cbn [mounts_image mounts_required_size fold_right].
  rewrite length_app, Nat2Z.inj_add, mount_image_length.
  fold (mounts_required_size rest). lia.
Qed.

Lemma mounts_image_covers (l : list mounted_fs) :
  (length l <= length (mounts_image l))%nat.
Proof.
  induction l as [| mp rest IH]; [reflexivity |].
  cbn [mounts_image length]. rewrite length_app.
  pose proof (mount_image_length mp (is_last rest)).
  pose proof (mount_required_size_pos mp). lia.
Qed.

Lemma mounts_loop_image (l : list mounted_fs) :
  forall (pre old post : list ascii) position,
    position = Z.of_nat (length pre) ->
    length old = length (mounts_image l) ->
    Z.of_nat (length pre + length old) < modulus ->
    mounts_loop l position (pre ++ old ++ post)
    = pre ++ mounts_image l ++ post.
Proof.
  induction l as [| mp rest IH]; intros pre old post position Hpos Hold Hlt.
  - destruct old; [reflexivity | discriminate Hold].
  - rewrite mounts_loop_cons.
    cbn [mounts_image] in Hold |- *. rewrite length_app in Hold.
    destruct (split_chunk old (length (mount_image mp (is_last rest))))
      as (old1 & old2 & -> & Hold1); [lia |].
    rewrite length_app in Hold.
    pose proof (mount_image_length mp (is_last rest)) as Himg.
    pose proof (mount_required_size_pos mp) as Hpos35.
    rewrite <- (app_assoc old1 old2 post).
    rewrite mount_stores_image; [| subst position; lia | lia].
    destruct rest as [| g rest].
    + cbn [mounts_image] in Hold. rewrite length_nil in Hold.
      destruct old2; [| cbn [length] in Hold; lia].
      cbn [mounts_loop mounts_image is_last mount_image].
      now rewrite !app_nil_r.
    + set (rest' := g :: rest) in *.
      change (is_last rest') with false in *. cbv iota.
      rewrite length_app in Hlt.
      change (mount_record_size mp) with (wrap64 (mount_required_size mp)).
      rewrite (wrap64_small (mount_required_size mp)) by lia.
      rewrite wrap64_small by lia.
      rewrite (app_assoc pre _ (old2 ++ post)).
      rewrite (IH (pre ++ mount_image mp false) old2 post).
      * unfold mount_image. now rewrite <- !app_assoc.
      * rewrite length_app. lia.
      * lia.
      * rewrite length_app. lia.
Qed.

Lemma wrap64_add_r a b : wrap64 (a + wrap64 b) = wrap64 (a + b).
Proof. unfold wrap64. apply Zplus_mod_idemp_r. Qed.

Lemma mounts_total_size_from (l : list mounted_fs) : forall acc,
  fold_left (fun total_size mp => wrap64 (total_size + mount_record_size mp))
    l (wrap64 acc)
  = wrap64 (acc + mounts_required_size l).
Proof.
  induction l as [| mp rest IH]; intros acc.
  - simpl. now rewrite Z.add_0_r.
  - cbn [fold_left mounts_required_size fold_right].
    fold (mounts_required_size rest).
    change (mount_record_size mp) with (wrap64 (mount_required_size mp)).
    rewrite wrap64_add_r, wrap64_add_l, IH. f_equal. lia.
Qed.

Lemma mounts_total_size_wrap (l : list mounted_fs) :
  mounts_total_size l = wrap64 (mounts_required_size l).
Proof. apply (mounts_total_size_from l 0). Qed.

(** *** Reading the strings back *)

Lemma c_string_terminated (s : string) (rest : list ascii) :
  nul_free s -> c_string (chars s ++ NUL :: rest) = chars s.
Proof.
  unfold nul_free, chars.
  induction s as [| c s IH]; intros Hfree; simpl.
  - reflexivity.
  - destruct (Ascii.eqb_spec c NUL) as [-> | Hne].
    + exfalso. apply Hfree. simpl. apply elem_of_cons. now left.
    + f_equal. apply IH. intros Hin. apply Hfree. simpl.
      apply elem_of_cons. now right.
Qed.

Lemma drop_terminated (cs rest : list ascii) c :
  drop (S (length cs)) (cs ++ c :: rest) = rest.
Proof. induction cs as [| x cs IH]; [reflexivity | exact IH]. Qed.

Lemma partition_type_nul_free type :
  nul_free (partition_type_to_string type).
Proof.
  unfold nul_free. destruct type; apply (bool_decide_unpack _); reflexivity.
Qed.

Lemma string_of_chars s : string_of_list_ascii (chars s) = s.
Proof. apply string_of_list_ascii_of_string. Qed.

Lemma read_mount_strings_image (mp : mounted_fs) last (pre post : list ascii) :
  well_formed_mount mp ->
  read_mount_strings (pre ++ mount_image mp last ++ post) (length pre)
  = mount_triple mp.
Proof.
  intros [Hmp Hdev]. unfold read_mount_strings, mount_image, mp_name.
  rewrite <- !app_assoc.
  repeat (rewrite drop_app_ge by chunk_length).
  match goal with
  | |- context [drop ?n (chars (mount_point mp) ++ _)] =>
      replace n with 0%nat by chunk_length
  end.
  rewrite drop_0. cbn [app].
  rewrite (c_string_terminated _ _ Hmp), drop_terminated.
  rewrite (c_string_terminated _ _ Hdev), drop_terminated.
  rewrite (c_string_terminated _ _ (partition_type_nul_free _)).
  now rewrite !string_of_chars.
Qed.

Lemma read_mounts_image (l : list mounted_fs) :
  forall (pre post : list ascii) fuel,
    l <> [] ->
    Forall well_formed_mount l ->
    (length l <= fuel)%nat ->
    Z.of_nat (length (mounts_image l)) < modulus ->
    read_mounts fuel (pre ++ mounts_image l ++ post) (length pre)
    = map mount_triple l.
Proof.
  induction l as [| mp rest IH]; intros pre post fuel Hne Hwf Hfuel Hlt;
    [congruence |].
  destruct fuel as [| fuel]; [simpl in Hfuel; lia |].
  apply Forall_cons in Hwf as [Hmp Hrest].
  cbn [mounts_image] in Hlt |- *. rewrite length_app in Hlt.
  pose proof (mount_image_length mp (is_last rest)) as Himg.
  pose proof (mount_required_size_pos mp) as Hpos35.
  cbn [read_mounts map].
  rewrite <- (app_assoc (mount_image mp (is_last rest))).
  rewrite read_mount_strings_image by exact Hmp.
  f_equal.
  assert (Hnext :
    load_word (pre ++ mount_image mp (is_last rest) ++ mounts_image rest ++ post)
      (length pre + mp_offset_next)
    = if is_last rest then 0 else mount_required_size mp).
  { unfold mount_image, mp_offset_next. rewrite <- !app_assoc.
    rewrite load_word_skip by lia.
    apply load_word_here; [lia |].
    destruct (is_last rest); [easy | lia]. }
  rewrite Hnext.
  destruct rest as [| g rest].
  - reflexivity.
  - set (rest' := g :: rest) in *.
    change (is_last rest') with false in *. cbv iota.
    destruct (Z.eqb_spec (mount_required_size mp) 0) as [Hz | _]; [lia |].
    rewrite (app_assoc pre (mount_image mp false)).
    replace (length pre + Z.to_nat (mount_required_size mp))%nat
      with (length (pre ++ mount_image mp false)) by (rewrite length_app; lia).
    apply IH;
      [subst rest'; congruence | exact Hrest | cbn [length] in Hfuel; lia | lia].
Qed.

End MountsFacts.

(** ** The facade, for every platform and every backend *)

Section FacadeFacts.

Context `{Constants} `{Backend}.

Local Open Scope Z_scope.

Lemma error_codes_positive :
  0 < ERROR_NOT_EXISTS /\ 0 < ERROR_INVALID_FILE_PATH
  /\ 0 < ERROR_INVALID_FILE_DESCRIPTOR /\ 0 < ERROR_BUFFER_SMALL
  /\ 0 < ERROR_INVALID_FILE_SYSTEM /\ 0 < ERROR_ALREADY_MOUNTED.
Proof.
  pose proof errors_positive as Hpos.
  repeat (apply Forall_cons in Hpos as [? Hpos]).
  repeat split; assumption.
Qed.

Lemma has_handle_lookup (w : world) fd p :
  handles w !! fd = Some p -> has_handle w fd = true.
Proof.
  intros Hfd. unfold has_handle. apply Nat.ltb_lt.
  now apply lookup_lt_Some in Hfd.
Qed.

Lemma invoke_Some {A : Type} (w : world) i c
    (method : file_system -> A * file_system) mp a fs' :
  mount_point_list w !! i = Some mp ->
  method (mfs_file_system mp) = (a, fs') ->
  invoke i c method w = Some (a, after_call w i mp fs' c).
Proof. intros Hmp Hm. unfold invoke. now rewrite Hmp, Hm. Qed.

Lemma after_call_lookup (w : world) i mp fs' c :
  mount_point_list w !! i = Some mp ->
  mount_point_list (after_call w i mp fs' c) !! i
  = Some (with_file_system mp fs').
Proof.
  intros Hmp. simpl. apply list_lookup_insert_eq.
  now apply lookup_lt_Some in Hmp.
Qed.

(** *** The lookup on the registry *)

(** Where the root mount was registered first and the inner loop of
    [get_fs] matches no mount longer than the path, the path is the segments
    of the selected mount followed by the backend-local path. *)
Lemma get_fs_path_decomposes (l : list mounted_fs) (b : path) m :
  map mp_vec l !! 0%nat = Some [] ->
  (forall v, v ∈ map mp_vec l -> segments_match v (names b) = true ->
             (length v <= length (names b))%nat) ->
  l !! get_fs l b = Some m ->
  names b = mp_vec m ++ names (get_fs_path b m).
Proof.
  intros Hroot Hfit Hm.
  destruct (get_fs_longest_prefix (map mp_vec l) b Hroot Hfit)
    as (v & Hv & Hpre & _).
  unfold get_fs in Hm. rewrite list_lookup_fmap, Hm in Hv.
  injection Hv as <-. now apply sub_path_of_prefix.
Qed.

(** *** [stat] on the root of a mount *)

(** The branch of [stat] for the root of a mount, on every input.  For a
    valid descriptor whose backend-local path is empty, [stat] returns 0,
    sets the size to 4096 and the flags to [STAT_FLAG_DIRECTORY], and leaves
    the three timestamps of the caller's record as they were; the world is
    unchanged, so no backend method is called. *)
Theorem stat_mount_root (w : world) fd info base_path fs :
  handles w !! fd = Some base_path ->
  mount_point_list w !! get_fs (mount_point_list w) base_path = Some fs ->
  path_empty (get_fs_path base_path fs) = true ->
  stat fd info w
  = Some ((0, {| info_size := 4096;
                 info_flags := STAT_FLAG_DIRECTORY;
                 info_created := info_created info;
                 info_modified := info_modified info;
                 info_accessed := info_accessed info |}), w).
Proof.
  intros Hfd Hfs Hempty. unfold stat.
  rewrite (has_handle_lookup _ _ _ Hfd). simpl.
  unfold get_handle. rewrite Hfd. simpl.
  rewrite Hfs. simpl. now rewrite Hempty.
Qed.

(** *** The duplicate check of the descriptor form of [mount] *)

Lemma existsb_duplicates (w : world) mp :
  existsb (fun m => String.eqb (mount_point m) mp) (mount_point_list w) = true
  <-> duplicates w mp.
Proof.
  rewrite existsb_exists. unfold duplicates.
  split; intros (m & Hin & Heq); exists m.
  - split; [now apply list_elem_of_In | now apply String.eqb_eq].
  - split; [now apply list_elem_of_In | now apply String.eqb_eq].
Qed.

(** C10.  With two valid descriptors, the descriptor form of [mount] looks
    for a live mount with the joined mount point before it builds the
    backend: a duplicate is answered [-ERROR_ALREADY_MOUNTED] for every
    partition type, [UNKNOWN] included, with the world unchanged, and the
    answer [-ERROR_INVALID_FILE_SYSTEM] is only given when the mount point is
    not a duplicate (and is given then for the type [UNKNOWN]). *)
Theorem mount_fd_checks_duplicate_first (w : world) type mp_fd dev_fd
    mp_path dev_path :
  handles w !! mp_fd = Some mp_path ->
  handles w !! dev_fd = Some dev_path ->
  (duplicates w (join_path mp_path) ->
   mount_fd type mp_fd dev_fd w = Some (- ERROR_ALREADY_MOUNTED, w))
  /\ (forall w', mount_fd type mp_fd dev_fd w
                 = Some (- ERROR_INVALID_FILE_SYSTEM, w') ->
      ~ duplicates w (join_path mp_path))
  /\ (~ duplicates w (join_path mp_path) ->
      mount_fd UNKNOWN mp_fd dev_fd w = Some (- ERROR_INVALID_FILE_SYSTEM, w)).
Proof.
  intros Hmp Hdev.
  assert (Hunfold : forall t,
    mount_fd t mp_fd dev_fd w
    = if existsb (fun m => String.eqb (mount_point m) (join_path mp_path))
           (mount_point_list w)
      then Some (- ERROR_ALREADY_MOUNTED, w)
      else
        match get_new_fs t (join_path mp_path) (join_path dev_path) with
        | None => Some (- ERROR_INVALID_FILE_SYSTEM, w)
        | Some fs =>
            let i := length (mount_point_list w) in
            let w1 :=
              set_mounts w
                (mount_point_list w
                 ++ [make_mounted_fs t (join_path dev_path)
                       (join_path mp_path) fs]) in
            '(_, w2) ← invoke i CallInit (fun fs => (tt, fs_init fs)) w1;
            Some (0, w2)
        end).
  { intros t. unfold mount_fd.
    rewrite (has_handle_lookup _ _ _ Hmp), (has_handle_lookup _ _ _ Hdev).
    simpl. unfold get_handle. rewrite Hmp, Hdev. reflexivity. }
  destruct error_codes_positive as (_ & _ & _ & _ & Hfs & Ham).
  assert (Hne : ERROR_ALREADY_MOUNTED <> ERROR_INVALID_FILE_SYSTEM).
  { pose proof errors_distinct as Hnd.
    do 4 (apply NoDup_cons in Hnd as [_ Hnd]).
    apply NoDup_cons in Hnd as [Hnotin _].
    intros Heq. apply Hnotin. rewrite Heq. apply elem_of_cons. now left. }
  split; [| split].
  - intros Hdup. rewrite Hunfold.
    apply existsb_duplicates in Hdup. now rewrite Hdup.
  - intros w' Hres Hdup. rewrite Hunfold in Hres.
    apply existsb_duplicates in Hdup. rewrite Hdup in Hres.
    injection Hres as Hres _. lia.
  - intros Hnodup. rewrite Hunfold.
    destruct (existsb _ _) eqn:Hex; [| reflexivity].
    apply existsb_duplicates in Hex. contradiction.
Qed.

(** *** Invariant (b) under the descriptor form of [mount] *)

Lemma join_path_names (p : path) : join_path (Path true (names p)) = join_path p.
Proof. reflexivity. Qed.

(** [init] on an empty registry registers the four boot mounts, in order,
    and the registry it leaves is canonical with distinct segments. *)
Lemma init_registry (w : world) :
  mount_point_list w = [] ->
  exists w',
    init w = Some w'
    /\ map mount_triple (mount_point_list w')
       = [("/", "/dev/hda1", "FAT32"); ("/sys/", "none", "sysfs");
          ("/dev/", "none", "devfs"); ("/proc/", "none", "procfs")]
    /\ map mp_vec (mount_point_list w') = [[]; ["sys"]; ["dev"]; ["proc"]]
    /\ registry_invariant (mount_point_list w').
Proof.
  intros Hempty. unfold init, mount_root, mount_sys, mount_dev, mount_proc,
    mount, set_mounts, invoke.
  simpl. rewrite Hempty. simpl.
  eexists. split; [reflexivity |]. simpl.
  split; [reflexivity |]. split; [reflexivity |].
  split.
  - unfold distinct_segments. simpl.
    apply (bool_decide_unpack _). reflexivity.
  - repeat constructor.
Qed.

(** The descriptor form of [mount] keeps invariant (b): on a canonical
    registry with distinct segments, with valid paths behind the descriptors,
    the registry it leaves is canonical with distinct segments, whatever it
    answers. *)
Theorem mount_fd_preserves_invariant (w : world) type mp_fd dev_fd r w' :
  registry_invariant (mount_point_list w) ->
  Forall valid_path (handles w) ->
  mount_fd type mp_fd dev_fd w = Some (r, w') ->
  registry_invariant (mount_point_list w').
Proof.
  intros [Hdistinct Hcanon] Hvalid. unfold mount_fd.
  destruct (has_handle w mp_fd) eqn:Hmp; simpl;
    [| intros [= _ <-]; now split].
  destruct (has_handle w dev_fd) eqn:Hdev; simpl;
    [| intros [= _ <-]; now split].
  unfold get_handle.
  destruct (handles w !! mp_fd) as [mp_path |] eqn:Hmp_path; simpl;
    [| discriminate].
  destruct (handles w !! dev_fd) as [dev_path |] eqn:Hdev_path; simpl;
    [| discriminate].
  destruct (existsb _ (mount_point_list w)) eqn:Hdup;
    [intros [= _ <-]; now split |].
  destruct (get_new_fs type (join_path mp_path) (join_path dev_path))
    as [fs |]; [| intros [= _ <-]; now split].
  unfold invoke, set_mounts. cbn [mount_point_list].
  rewrite lookup_app_r by lia. rewrite Nat.sub_diag. simpl.
  intros [= _ <-]. cbn [mount_point_list after_call].
  rewrite insert_app_r_alt by lia. rewrite Nat.sub_diag. simpl.
  assert (Hpath : valid_path mp_path).
  { eapply Forall_forall in Hvalid; [exact Hvalid |].
    now apply (list_elem_of_lookup_2 _ mp_fd). }
  pose proof (split_join_path mp_path Hpath) as Hsplit.
  split.
  - unfold distinct_segments. rewrite map_app. simpl. rewrite Hsplit.
    apply NoDup_app. split; [exact Hdistinct |]. split; [| apply NoDup_singleton].
    intros v Hin Hv. apply list_elem_of_singleton in Hv. subst v.
    apply list_elem_of_fmap in Hin as (m & Hvec & Hm).
    assert (Hex : existsb (fun m => String.eqb (mount_point m)
                                      (join_path mp_path))
                    (mount_point_list w) = true).
    { apply existsb_exists. exists m. split; [now apply list_elem_of_In |].
      apply String.eqb_eq.
      eapply Forall_forall in Hcanon; [| exact Hm].
      unfold canonical_mount in Hcanon. rewrite Hcanon, <- Hvec.
      apply join_path_names. }
    rewrite Hex in Hdup. discriminate Hdup.
  - apply Forall_app. split; [exact Hcanon |].
    constructor; [| constructor].
    unfold canonical_mount. simpl. rewrite Hsplit.
    symmetry. apply join_path_names.
Qed.

(** *** [open] with the [CREATE] flag *)

Lemma open_unfold (w : world) file_path flags fs :
  file_path <> "" ->
  let base_path := get_path w file_path in
  let i := get_fs (mount_point_list w) base_path in
  mount_point_list w !! i = Some fs ->
  let fs_path := get_fs_path base_path fs in
  is_root fs_path = false ->
  open file_path flags w
  = '(sub_result, w) ←
      (if negb (Z.land flags OPEN_CREATE =? 0) then
         '(r, w) ← invoke i (CallGetFile fs_path) (fs_get_file fs_path) w;
         if fst r =? ERROR_NOT_EXISTS
         then invoke i (CallTouch fs_path) (fs_touch fs_path) w
         else Some (fst r, w)
       else
         '(r, w) ← invoke i (CallGetFile fs_path) (fs_get_file fs_path) w;
         Some (fst r, w));
    if 0 <? sub_result then Some (- sub_result, w)
    else Some (register_new_handle base_path w).
Proof.
  intros Hne base_path i Hfs fs_path Hroot. unfold open.
  apply String.eqb_neq in Hne. rewrite Hne.
  fold base_path. fold i. rewrite Hfs. simpl.
  fold fs_path. now rewrite Hroot.
Qed.

(** C6.  [open] with the [CREATE] flag on a path whose backend-local path is
    not empty.  When [get_file] answers [ERROR_NOT_EXISTS], [touch] is called
    next; if it succeeds a descriptor for the absolute path is registered
    and returned, which is not negative, and if it fails with [t] the answer
    is [-t] and no descriptor is registered.  When [get_file] answers another
    positive error [e], the answer is [-e], [touch] is not called and no
    descriptor is registered.  Without the flag every positive error of
    [get_file], [ERROR_NOT_EXISTS] included, is answered negated: the
    absorbed error is that one under [CREATE] only. *)
Theorem open_create_absorbs_not_exists (w : world) file_path flags fs e f fs1 :
  file_path <> "" ->
  let base_path := get_path w file_path in
  let i := get_fs (mount_point_list w) base_path in
  mount_point_list w !! i = Some fs ->
  let fs_path := get_fs_path base_path fs in
  is_root fs_path = false ->
  fs_get_file fs_path (mfs_file_system fs) = ((e, f), fs1) ->
  (Z.land flags OPEN_CREATE <> 0 ->
   (e = ERROR_NOT_EXISTS ->
    forall t fs2, fs_touch fs_path fs1 = (t, fs2) ->
    exists r w',
      open file_path flags w = Some (r, w')
      /\ backend_log w'
         = backend_log w ++ [(i, CallGetFile fs_path); (i, CallTouch fs_path)]
      /\ (t <= 0 ->
          r = Z.of_nat (length (handles w)) /\ 0 <= r
          /\ handles w' = handles w ++ [base_path])
      /\ (0 < t -> r = - t /\ handles w' = handles w))
   /\ (e <> ERROR_NOT_EXISTS -> 0 < e ->
       exists w',
         open file_path flags w = Some (- e, w')
         /\ backend_log w' = backend_log w ++ [(i, CallGetFile fs_path)]
         /\ handles w' = handles w))
  /\ (Z.land flags OPEN_CREATE = 0 -> 0 < e ->
      exists w',
        open file_path flags w = Some (- e, w')
        /\ backend_log w' = backend_log w ++ [(i, CallGetFile fs_path)]
        /\ handles w' = handles w).
Proof.
  intros Hne base_path i Hfs fs_path Hroot Hget.
  pose proof (open_unfold w file_path flags fs Hne Hfs Hroot) as Hopen.
  fold base_path i fs_path in Hopen.
  pose proof (invoke_Some w i (CallGetFile fs_path) (fs_get_file fs_path)
                fs (e, f) fs1 Hfs Hget) as Hinv.
  split; [intros Hflag; split |].
  - intros -> t fs2 Htouch.
    pose proof (after_call_lookup w i fs fs1 (CallGetFile fs_path) Hfs) as Hfs1.
    pose proof (invoke_Some _ i (CallTouch fs_path) (fs_touch fs_path)
                  _ t fs2 Hfs1 Htouch) as Hinv2.
    rewrite Hopen.
    apply Z.eqb_neq in Hflag. rewrite Hflag. simpl.
    rewrite Hinv. simpl. rewrite Z.eqb_refl, Hinv2. simpl.
    destruct (Z.ltb_spec 0 t) as [Hpos | Hnpos].
    + eexists _, _. split; [reflexivity |]. simpl.
      split; [now rewrite <- app_assoc |].
      split; [lia | auto].
    + eexists _, _. split; [reflexivity |]. simpl.
      split; [now rewrite <- app_assoc |].
      split; [| lia]. intros _. split; [reflexivity |]. split; [lia | reflexivity].
  - intros Hother Hpos. rewrite Hopen.
    apply Z.eqb_neq in Hflag. rewrite Hflag. simpl.
    rewrite Hinv. simpl.
    apply Z.eqb_neq in Hother. rewrite Hother. simpl.
    apply Z.ltb_lt in Hpos. rewrite Hpos.
    eexists. split; [reflexivity |]. simpl. auto.
  - intros Hflag Hpos. rewrite Hopen.
    apply Z.eqb_eq in Hflag. rewrite Hflag. simpl.
    rewrite Hinv. simpl.
    apply Z.ltb_lt in Hpos. rewrite Hpos.
    eexists. split; [reflexivity |]. simpl. auto.
Qed.

(** *** [direct_read] into a string *)

Lemma reserve_length (n : nat) s : (n <= length (str_data (reserve n s)))%nat.
Proof.
  unfold reserve. destruct (Nat.ltb_spec (length (str_data s)) n); simpl.
  - rewrite length_app, length_replicate. lia.
  - lia.
Qed.

Lemma store_bytes_start (data buffer : list ascii) :
  (length data <= length buffer)%nat ->
  store_bytes buffer 0 data = data ++ drop (length data) buffer.
Proof.
  intros Hle. rewrite <- (take_drop (length data) buffer) at 1.
  apply store_bytes_here; [reflexivity |].
  rewrite length_take. lia.
Qed.

(** C9.  When [get_file] succeeds with a file of size [n] and the read of [n]
    bytes at offset 0 then succeeds with the [r] bytes [data], [direct_read]
    returns [r], the logical length of the string is [r], the character at
    index [r] of its storage is NUL and its contents are the bytes read. *)
Theorem direct_read_string_terminates_content (w : world) file_path content
    fs f fs1 data fs2 :
  let base_path := get_path w file_path in
  let i := get_fs (mount_point_list w) base_path in
  mount_point_list w !! i = Some fs ->
  let fs_path := get_fs_path base_path fs in
  fs_get_file fs_path (mfs_file_system fs) = ((0, f), fs1) ->
  fs_read fs_path (file_size f) 0 fs1 = ((0, data), fs2) ->
  0 <= file_size f < half_modulus ->
  Z.of_nat (length data) <= file_size f ->
  exists content' w',
    direct_read_string file_path content w
    = Some ((Z.of_nat (length data), content'), w')
    /\ str_size content' = length data
    /\ str_data content' !! length data = Some NUL
    /\ contents content' = data.
Proof.
  intros base_path i Hfs fs_path Hget Hread Hsize Hr.
  pose proof (invoke_Some w i (CallGetFile fs_path) (fs_get_file fs_path)
                fs (0, f) fs1 Hfs Hget) as Hinv.
  pose proof (after_call_lookup w i fs fs1 (CallGetFile fs_path) Hfs) as Hfs1.
  pose proof (invoke_Some _ i (CallRead fs_path (file_size f) 0)
                (fs_read fs_path (file_size f) 0) _ (0, data) fs2 Hfs1 Hread)
    as Hinv2.
  unfold direct_read_string. fold base_path i. rewrite Hfs. simpl.
  fold fs_path. rewrite Hinv. simpl. rewrite Hinv2. simpl.
  pose proof half_lt_modulus as Hhalf.
  rewrite wrap64_small by lia.
  rewrite to_int64_small by lia.
  set (storage := str_data (reserve (Z.to_nat (file_size f + 1)) content)).
  assert (Hcap : (length data < length storage)%nat).
  { pose proof (reserve_length (Z.to_nat (file_size f + 1)) content).
    fold storage in H1. lia. }
  eexists _, _. split; [reflexivity |]. simpl.
  rewrite store_bytes_start by lia.
  split; [reflexivity |]. split.
  - apply list_lookup_insert_eq. rewrite length_app, length_drop. lia.
  - unfold contents. simpl.
    rewrite insert_app_r_alt by lia.
    now rewrite take_app_length.
Qed.

(** *** The empty path string *)

(** [open], [mkdir], [rm] and [statfs] answer [-ERROR_INVALID_FILE_PATH] to
    the empty string and leave the world, hence the log of backend calls, as
    it was. *)
Lemma empty_path_rejected (w : world) flags info :
  open "" flags w = Some (- ERROR_INVALID_FILE_PATH, w)
  /\ mkdir "" w = Some (- ERROR_INVALID_FILE_PATH, w)
  /\ rm "" w = Some (- ERROR_INVALID_FILE_PATH, w)
  /\ statfs "" info w = Some ((- ERROR_INVALID_FILE_PATH, info), w).
Proof. repeat split. Qed.

(** [direct_read] and [direct_write] have no such test: the empty string is
    resolved against the working directory and the backend is called. *)
Lemma direct_read_empty_path (w : world) buffer count offset r w' :
  direct_read "" buffer count offset w = Some (r, w') ->
  exists i p, backend_log w' = backend_log w ++ [(i, CallRead p count offset)].
Proof.
  unfold direct_read. intros Hres.
  remember (get_path w "") as base_path eqn:Hbase.
  remember (get_fs (mount_point_list w) base_path) as i eqn:Hi.
  destruct (mount_point_list w !! i) as [fs |] eqn:Hfs; [| discriminate Hres].
  simpl in Hres.
  remember (get_fs_path base_path fs) as p eqn:Hp.
  destruct (fs_read p count offset (mfs_file_system fs))
    as [[res data] fs1] eqn:Hr.
  rewrite (invoke_Some w i _ _ fs (res, data) fs1 Hfs Hr) in Hres.
  simpl in Hres.
  exists i, p.
  destruct (0 <? res); injection Hres as _ <-; reflexivity.
Qed.

Lemma direct_write_empty_path (w : world) buffer count offset r w' :
  direct_write "" buffer count offset w = Some (r, w') ->
  exists i p, backend_log w' = backend_log w ++ [(i, CallWrite p count offset)].
Proof.
  unfold direct_write. intros Hres.
  remember (get_path w "") as base_path eqn:Hbase.
  remember (get_fs (mount_point_list w) base_path) as i eqn:Hi.
  destruct (mount_point_list w !! i) as [fs |] eqn:Hfs; [| discriminate Hres].
  simpl in Hres.
  remember (get_fs_path base_path fs) as p eqn:Hp.
  destruct (fs_write p buffer count offset (mfs_file_system fs))
    as [[res written] fs1] eqn:Hr.
  rewrite (invoke_Some w i _ _ fs (res, written) fs1 Hfs Hr) in Hres.
  simpl in Hres.
  exists i, p.
  destruct (0 <? res); injection Hres as _ <-; reflexivity.
Qed.

(** *** [entries] *)

(** What [entries] does when [ls] succeeds with [files].  It answers [-ERROR_BUFFER_SMALL] exactly when [size] is below the sum of
    [sizeof(directory_entry) + len(file_name)]; otherwise it returns that sum
    and overwrites the start of the buffer with the image of the listing,
    which takes [len(file_name) + 1 + 3 * 8] bytes per file (no more than the
    sum returned) and leaves the rest of the buffer as it was.  A reader of
    the image finds [offset_next] equal to [len(file_name) + 1 + 3 * 8] in
    every entry but the last and 0 in the last. *)
Theorem entries_listing (w : world) fd buffer size base_path fs files fs1 :
  handles w !! fd = Some base_path ->
  let i := get_fs (mount_point_list w) base_path in
  mount_point_list w !! i = Some fs ->
  let fs_path := get_fs_path base_path fs in
  fs_ls fs_path (mfs_file_system fs) = ((0, files), fs1) ->
  entries_required_size files < half_modulus ->
  0 <= size <= Z.of_nat (length buffer) ->
  exists r buffer',
    entries fd buffer size w
    = Some ((r, buffer'), after_call w i fs fs1 (CallLs fs_path))
    /\ (r = - ERROR_BUFFER_SMALL <-> size < entries_required_size files)
    /\ (entries_required_size files <= size ->
        r = entries_required_size files
        /\ buffer'
           = listing_image files ++ drop (length (listing_image files)) buffer
        /\ Z.of_nat (length (listing_image files)) = entries_written_size files
        /\ entries_written_size files <= r
        /\ (files <> [] ->
            read_entries (length files) buffer' 0 = expected_entries files)).
Proof.
  intros Hfd i Hfs fs_path Hls Hreq Hsize.
  pose proof (invoke_Some w i (CallLs fs_path) (fs_ls fs_path)
                fs (0, files) fs1 Hfs Hls) as Hinv.
  pose proof (entries_written_le_required files) as Hle.
  pose proof (entries_written_size_nonneg files) as Hnonneg.
  pose proof (listing_image_length files) as Hlen.
  pose proof half_lt_modulus as Hhalf.
  destruct error_codes_positive as (_ & _ & _ & Hsmall & _).
  unfold entries. rewrite (has_handle_lookup _ _ _ Hfd). simpl.
  unfold get_handle. rewrite Hfd. simpl. fold i. rewrite Hfs. simpl.
  fold fs_path. rewrite Hinv. simpl.
  rewrite entries_total_size_wrap, wrap64_small by lia.
  destruct (Z.ltb_spec size (entries_required_size files)) as [Hlt | Hge].
  - eexists _, _. split; [reflexivity |].
    split; [tauto | lia].
  - rewrite to_int64_small by lia.
    eexists _, _. split; [reflexivity |].
    split; [split; lia |]. intros _.
    assert (Himage : entries_loop files 0 buffer
                     = listing_image files
                       ++ drop (length (listing_image files)) buffer).
    { rewrite <- (take_drop (length (listing_image files)) buffer) at 1.
      apply (entries_loop_image files [] _ _ 0); [reflexivity | |].
      - rewrite length_take. lia.
      - rewrite length_take. simpl. lia. }
    split; [reflexivity |]. split; [exact Himage |].
    split; [exact Hlen |]. split; [exact Hle |].
    intros Hne. rewrite Himage.
    apply (read_entries_image files [] _ (length files)); [exact Hne | lia | lia].
Qed.

(** C3.  The first loop of [entries] sums [sizeof(directory_entry) +
    len(file_name)], the second advances by [len(file_name) + 1 + 3 * 8]:
    the two agree only if the record has no padding after the first
    character of the name.  Wherever [sizeof(directory_entry)] exceeds
    [3 * 8 + 1], as it does when the record is padded to the alignment of its
    8-byte words, a successful [entries] on a listing that is not empty
    returns the sum the claim states but writes fewer bytes than it returns,
    [sizeof(directory_entry) - 25] fewer per file, and the buffer from the
    end of the last entry on still holds what the caller had put there.
    [mounts] uses one expression for both loops. *)
Theorem entries_count_exceeds_written (w : world) fd buffer size base_path
    fs files fs1 :
  3 * 8 + 1 < sizeof_directory_entry ->
  files <> [] ->
  handles w !! fd = Some base_path ->
  let i := get_fs (mount_point_list w) base_path in
  mount_point_list w !! i = Some fs ->
  let fs_path := get_fs_path base_path fs in
  fs_ls fs_path (mfs_file_system fs) = ((0, files), fs1) ->
  entries_required_size files < half_modulus ->
  entries_required_size files <= size <= Z.of_nat (length buffer) ->
  exists r buffer',
    entries fd buffer size w
    = Some ((r, buffer'), after_call w i fs fs1 (CallLs fs_path))
    /\ r = entries_required_size files
    /\ entries_written_size files < r
    /\ r - entries_written_size files
       = Z.of_nat (length files) * (sizeof_directory_entry - (3 * 8 + 1))
    /\ take (Z.to_nat (entries_written_size files)) buffer'
       = listing_image files
    /\ drop (Z.to_nat (entries_written_size files)) buffer'
       = drop (Z.to_nat (entries_written_size files)) buffer.
Proof.
  intros Hpad Hne Hfd i Hfs fs_path Hls Hreq Hsize.
  destruct (entries_listing w fd buffer size base_path fs files fs1
              Hfd Hfs Hls Hreq ltac:(pose proof (entries_written_size_nonneg files);
                                     pose proof (entries_written_le_required files);
                                     lia))
    as (r & buffer' & Hentries & _ & Hfits).
  destruct (Hfits ltac:(lia)) as (-> & -> & Hlen & _ & _).
  pose proof (entries_required_minus_written files) as Hgap.
  eexists _, _. split; [exact Hentries |].
  split; [reflexivity |].
  assert (Hfiles : (0 < length files)%nat)
    by (destruct files; [congruence | simpl; lia]).
  split; [nia |]. split; [exact Hgap |].
  rewrite <- Hlen, Nat2Z.id.
  split; [now rewrite take_app_length | now rewrite drop_app_length].
Qed.

(** *** [mounts] *)

(** C4.  With a buffer of at least the required size, [mounts] returns the
    sum over the registry of [4 * sizeof(size_t) + 3] plus the lengths of the
    device, the mount point and the name of the type, writes the image of the
    registry at the start of the buffer, and a reader that advances by
    [offset_next] until it is zero, reading the three NUL-terminated strings
    of each record, finds the triples of the registry in registration
    order. *)
Theorem mounts_round_trip (w : world) buffer size :
  Forall well_formed_mount (mount_point_list w) ->
  mounts_required_size (mount_point_list w) < half_modulus ->
  mounts_required_size (mount_point_list w) <= size <= Z.of_nat (length buffer) ->
  exists buffer',
    mounts buffer size w = (mounts_required_size (mount_point_list w), buffer')
    /\ buffer'
       = mounts_image (mount_point_list w)
         ++ drop (length (mounts_image (mount_point_list w))) buffer
    /\ parse_mounts (mounts_required_size (mount_point_list w)) buffer'
       = map mount_triple (mount_point_list w).
Proof.
  set (l := mount_point_list w).
  intros Hwf Hreq Hsize.
  pose proof (mounts_image_length l) as Hlen.
  pose proof (mounts_image_covers l) as Hcover.
  pose proof half_lt_modulus as Hhalf.
  unfold mounts. fold l.
  rewrite mounts_total_size_wrap, wrap64_small by lia.
  destruct (Z.ltb_spec size (mounts_required_size l)) as [Hlt | _]; [lia |].
  rewrite to_int64_small by lia.
  assert (Himage : mounts_loop l 0 buffer
                   = mounts_image l ++ drop (length (mounts_image l)) buffer).
  { rewrite <- (take_drop (length (mounts_image l)) buffer) at 1.
    apply (mounts_loop_image l [] _ _ 0); [reflexivity | |].
    - rewrite length_take. lia.
    - rewrite length_take. simpl. lia. }
  eexists. split; [reflexivity |]. split; [exact Himage |].
  rewrite Himage. unfold parse_mounts.
  destruct l as [| mp rest] eqn:Hl; [reflexivity |].
  rewrite <- Hl in *.
  destruct (Z.eqb_spec (mounts_required_size l) 0) as [Hz | _].
  - exfalso. rewrite Hl in Hlen, Hz.
    cbn [mounts_required_size fold_right] in Hz.
    fold (mounts_required_size rest) in Hz.
    pose proof (mount_required_size_pos mp).
    pose proof (mounts_image_length rest). lia.
  - apply (read_mounts_image l []).
    + rewrite Hl. congruence.
    + exact Hwf.
    + rewrite length_app. lia.
    + lia.
Qed.

End FacadeFacts.

(** ** The facade on the sample platform *)

Section Samples.

#[local] Existing Instance sample_constants.
#[local] Existing Instance MemFs.backend.

Local Open Scope Z_scope.

(** A relative path is resolved against the working directory: opening
    [notes.txt] with [CREATE] from [/home/user] asks the root mount for
    [home/user/notes.txt], creates it and returns the first descriptor. *)
Example open_relative_create :
  exists w',
    open "notes.txt" 1 home_world = Some (0, w')
    /\ handles w' = [Path true ["home"; "user"; "notes.txt"]]
    /\ backend_log w'
       = [(0%nat, CallGetFile (Path true ["home"; "user"; "notes.txt"]));
          (0%nat, CallTouch (Path true ["home"; "user"; "notes.txt"]))].
Proof. eexists. split; [vm_compute; reflexivity | split; reflexivity]. Qed.

Lemma stat_mount_root_witness :
  handles sys_world !! 0%nat = Some (Path true ["sys"])
  /\ stat 0 (StatInfo 0 0 7 8 9) sys_world
     = Some ((0, StatInfo 4096 STAT_FLAG_DIRECTORY 7 8 9), sys_world).
Proof.
  split; [reflexivity |].
  eapply (stat_mount_root sys_world 0 (StatInfo 0 0 7 8 9));
    [reflexivity | vm_compute; reflexivity | reflexivity].
Defined.

(** C7.  The branch of [stat] for the root of a mount returns success without
    writing the three timestamps, which the other branch of the same
    function does write: descriptor 0 of [sys_world] refers to [/sys/], the
    root of the sysfs mount, and [stat] on it returns 0 with the size and
    the flags set but with the timestamps 7, 8 and 9 the caller's record
    held, not the zeros the claim states. *)
Lemma stat_mount_root_keeps_timestamps :
  stat 0 (StatInfo 0 0 7 8 9) sys_world
  = Some ((0, StatInfo 4096 STAT_FLAG_DIRECTORY 7 8 9), sys_world)
  /\ ~ (exists size flags w',
          stat 0 (StatInfo 0 0 7 8 9) sys_world
          = Some ((0, StatInfo size flags 0 0 0), w')).
Proof.
  assert (Heval : stat 0 (StatInfo 0 0 7 8 9) sys_world
                  = Some ((0, StatInfo 4096 STAT_FLAG_DIRECTORY 7 8 9),
                          sys_world))
    by (vm_compute; reflexivity).
  split; [exact Heval |].
  intros (size & flags & w' & Hzero). rewrite Heval in Hzero.
  discriminate Hzero.
Qed.

Lemma mount_fd_checks_duplicate_first_witness :
  handles nested_world !! 0%nat = Some (Path true ["a"; "b"])
  /\ duplicates nested_world "/a/b/"
  /\ mount_fd UNKNOWN 0 1 nested_world
     = Some (- ERROR_ALREADY_MOUNTED, nested_world)
  /\ mount_fd UNKNOWN 1 0 nested_world
     = Some (- ERROR_INVALID_FILE_SYSTEM, nested_world).
Proof.
  assert (Hdup : duplicates nested_world "/a/b/").
  { eexists. split;
      [apply (list_elem_of_lookup_2 _ 4%nat); vm_compute; reflexivity
      | reflexivity]. }
  assert (Hfresh : ~ duplicates nested_world "/dev/hda2/").
  { intros Hex. apply existsb_duplicates in Hex. vm_compute in Hex.
    discriminate Hex. }
  split; [reflexivity |]. split; [exact Hdup |]. split.
  - apply (mount_fd_checks_duplicate_first nested_world UNKNOWN 0 1
             (Path true ["a"; "b"]) (Path true ["dev"; "hda2"]));
      [reflexivity | reflexivity | exact Hdup].
  - apply (mount_fd_checks_duplicate_first nested_world UNKNOWN 1 0
             (Path true ["dev"; "hda2"]) (Path true ["a"; "b"]));
      [reflexivity | reflexivity | exact Hfresh].
Defined.

Lemma open_create_absorbs_not_exists_witness :
  "/x" <> "" /\ Z.land 1 OPEN_CREATE <> 0
  /\ exists w',
       open "/x" 1 booted_world = Some (0, w')
       /\ handles w' = [Path true ["x"]]
       /\ backend_log w'
          = backend_log booted_world
            ++ [(0%nat, CallGetFile (Path true ["x"]));
                (0%nat, CallTouch (Path true ["x"]))].
Proof.
  split; [discriminate |]. split; [discriminate |].
  edestruct (open_create_absorbs_not_exists booted_world "/x" 1)
    as [Hcreate _];
    [discriminate | vm_compute; reflexivity | reflexivity
     | vm_compute; reflexivity |].
  destruct (Hcreate ltac:(discriminate)) as [Habsorb _].
  edestruct (Habsorb eq_refl) as (r & w' & Hopen & Hlog & Hok & _);
    [vm_compute; reflexivity |].
  destruct (Hok ltac:(discriminate)) as (-> & _ & Hhandles).
  exists w'. split; [exact Hopen |]. split; [exact Hhandles | exact Hlog].
Defined.

Lemma direct_read_string_terminates_content_witness :
  exists content' w',
    direct_read_string "/a" (StdString [] 0) files_world
    = Some ((5, content'), w')
    /\ str_size content' = 5%nat
    /\ str_data content' !! 5%nat = Some NUL
    /\ contents content' = chars "hello".
Proof.
  eapply (direct_read_string_terminates_content files_world "/a"
            (StdString [] 0)) with (data := chars "hello");
    [vm_compute; reflexivity | vm_compute; reflexivity
     | vm_compute; reflexivity | vm_compute; split; [discriminate | reflexivity]
     | vm_compute; discriminate].
Defined.

Lemma entries_listing_witness :
  handles files_world !! 2%nat = Some (Path true [])
  /\ entries_required_size root_files = 67
  /\ exists buffer' w',
       entries 2 (replicate 67 "x"%char) 67 files_world
       = Some ((67, buffer'), w')
       /\ buffer' = listing_image root_files ++ replicate 14 "x"%char
       /\ read_entries 2 buffer' 0 = expected_entries root_files.
Proof.
  split; [reflexivity |]. split; [reflexivity |].
  edestruct (entries_listing files_world 2 (replicate 67 "x"%char) 67
               (Path true []))
    as (r & buffer' & Hentries & _ & Hfits);
    [reflexivity | vm_compute; reflexivity | vm_compute; reflexivity
     | vm_compute; reflexivity | vm_compute; split; discriminate |].
  destruct (Hfits ltac:(vm_compute; discriminate))
    as (-> & -> & _ & _ & Hread).
  eexists _, _. split; [exact Hentries |]. split; [reflexivity |].
  apply Hread. discriminate.
Defined.

Lemma entries_count_exceeds_written_witness :
  sizeof_directory_entry = 32
  /\ exists buffer' w',
       entries 2 (replicate 67 "x"%char) 67 files_world
       = Some ((67, buffer'), w')
       /\ entries_written_size root_files = 53
       /\ take 53 buffer' = listing_image root_files
       /\ drop 53 buffer' = replicate 14 "x"%char.
Proof.
  split; [reflexivity |].
  edestruct (entries_count_exceeds_written files_world 2
               (replicate 67 "x"%char) 67 (Path true []))
    as (r & buffer' & Hentries & -> & _ & _ & Htake & Hdrop);
    [reflexivity | | reflexivity | vm_compute; reflexivity
     | vm_compute; reflexivity | vm_compute; reflexivity
     | vm_compute; split; discriminate |].
  - discriminate.
  - eexists _, _. split; [exact Hentries |]. split; [reflexivity |].
    split; [exact Htake | exact Hdrop].
Defined.

Lemma mounts_round_trip_witness :
  mounts_required_size (mount_point_list booted_world) = 199
  /\ exists buffer',
       mounts (replicate 200 "x"%char) 200 booted_world = (199, buffer')
       /\ parse_mounts 199 buffer'
          = [("/", "/dev/hda1", "FAT32"); ("/sys/", "none", "sysfs");
             ("/dev/", "none", "devfs"); ("/proc/", "none", "procfs")].
Proof.
  split; [reflexivity |].
  destruct (mounts_round_trip booted_world (replicate 200 "x"%char) 200)
    as (buffer' & Hmounts & _ & Hparse).
  - repeat constructor; apply (bool_decide_unpack _); vm_compute; reflexivity.
  - vm_compute. reflexivity.
  - vm_compute. split; discriminate.
  - exists buffer'. split; [exact Hmounts | exact Hparse].
Defined.

(** C5.  After [init], the form of [mount] that takes strings mounts
    [/sys/] a second time: it returns 0 and appends an entry whose segments
    are those of the sysfs mount, so that invariant (b) is lost.  The form
    that takes descriptors refuses the same mount point. *)
Theorem mount_accepts_duplicate :
  let '(r, w) := mount FAT32 "/sys/" "/dev/hda2" booted_world in
  r = 0
  /\ map mp_vec (mount_point_list w)
     = [[]; ["sys"]; ["dev"]; ["proc"]; ["sys"]]
  /\ ~ distinct_segments (mount_point_list w)
  /\ mount_fd FAT32 0 0 sys_world = Some (- ERROR_ALREADY_MOUNTED, sys_world).
Proof.
  destruct (mount FAT32 "/sys/" "/dev/hda2" booted_world) as [r w] eqn:Hm.
  vm_compute in Hm. injection Hm as <- <-.
  split; [reflexivity |]. split; [reflexivity |]. split.
  - unfold distinct_segments.
    change (~ NoDup [[]; ["sys"]; ["dev"]; ["proc"]; ["sys"]]).
    intros Hnd. apply NoDup_cons in Hnd as [_ Hnd].
    apply NoDup_cons in Hnd as [Hnotin _]. apply Hnotin.
    do 2 (apply elem_of_cons; right). apply elem_of_cons. now left.
  - vm_compute. reflexivity.
Qed.

(** C8.  On the booted system [direct_read], [direct_write] and the string
    form of [direct_read] do not reject the empty path string: each resolves
    it against the working directory, calls the backend of the root mount
    and answers with the negated error of the backend, [-ERROR_NOT_EXISTS],
    not with [-ERROR_INVALID_FILE_PATH]; the call is in the log. *)
Theorem direct_access_accepts_empty_path :
  let root := Path true [] in
  (exists w',
     direct_read "" (replicate 4 "x"%char) 4 0 booted_world
     = Some ((- ERROR_NOT_EXISTS, replicate 4 "x"%char), w')
     /\ backend_log w'
        = backend_log booted_world ++ [(0%nat, CallRead root 4 0)])
  /\ (exists w',
        direct_write "" (replicate 4 "x"%char) 4 0 booted_world
        = Some (- ERROR_NOT_EXISTS, w')
        /\ backend_log w'
           = backend_log booted_world
             ++ [(0%nat, CallWrite root 4 0)])
  /\ (exists w',
        direct_read_string "" (StdString [] 0) booted_world
        = Some ((- ERROR_NOT_EXISTS, StdString [] 0), w')
        /\ backend_log w'
           = backend_log booted_world ++ [(0%nat, CallGetFile root)])
  /\ - ERROR_NOT_EXISTS <> - ERROR_INVALID_FILE_PATH.
Proof.
  cbv zeta. split; [| split; [| split]].
  - eexists. split; vm_compute; reflexivity.
  - eexists. split; vm_compute; reflexivity.
  - eexists. split; vm_compute; reflexivity.
  - discriminate.
Qed.

End Samples.

(** * Further properties of the facade *)

(** ** The lookup *)

Section LookupMore.

Lemma find_root_first (vecs : list (list string)) : forall i r,
  find_root vecs i = Some r ->
  exists k, r = i + k /\ vecs !! k = Some []
            /\ forall j, j < k -> vecs !! j <> Some [].
Proof.
  induction vecs as [| v vecs IH]; intros i r Hfind; simpl in Hfind;
    [discriminate |].
  destruct v as [| x v].
  - injection Hfind as <-. exists 0. split; [lia |]. split; [reflexivity |].
    intros j Hj. lia.
  - destruct (IH _ _ Hfind) as (k & -> & Hk & Hfirst).
    exists (S k). split; [lia |]. split; [exact Hk |].
    intros [| j] Hj; simpl; [discriminate | apply Hfirst; lia].
Qed.

Lemma get_fs_index_in_range (vecs : list (list string)) (b : path) :
  vecs <> [] -> get_fs_index vecs b < length vecs.
Proof.
  intros Hne. unfold get_fs_index.
  assert (Hscan : snd (scan_mounts vecs (names b) 0 0 0) < length vecs).
  { pose proof (scan_mounts_spec (names b) vecs 0 0 0) as Hspec.
    cbn zeta in Hspec.
    destruct Hspec as (_ & _ & [-> | (k & v & Hk & -> & _)]).
    - destruct vecs; [congruence | simpl; lia].
    - apply lookup_lt_Some in Hk. lia. }
  destruct (is_root b); [| exact Hscan].
  destruct (find_root vecs 0) as [r |] eqn:Hfind; [| exact Hscan].
  apply find_root_first in Hfind as (k & -> & Hk & _).
  apply lookup_lt_Some in Hk. lia.
Qed.

Lemma get_fs_index_not_shadowed (vecs : list (list string)) (b : path) i j v :
  i < j -> vecs !! i = Some v -> vecs !! j = Some v ->
  get_fs_index vecs b <> j.
Proof.
  intros Hij Hi Hj. unfold get_fs_index.
  assert (Hscan : snd (scan_mounts vecs (names b) 0 0 0) <> j).
  { pose proof (scan_mounts_spec (names b) vecs 0 0 0) as Hspec.
    cbn zeta in Hspec.
    destruct Hspec as (_ & _ & [-> | (k & v' & Hk & Hidx & Hm & Hlen & _ & Hfirst)]).
    - simpl. lia.
    - rewrite Hidx. simpl. intros ->. rewrite Hj in Hk. injection Hk as <-.
      specialize (Hfirst i v Hij Hi Hm). lia. }
  destruct (is_root b); [| exact Hscan].
  destruct (find_root vecs 0) as [r |] eqn:Hfind; [| exact Hscan].
  apply find_root_first in Hfind as (k & -> & Hk & Hfirst).
  simpl. intros ->. rewrite Hj in Hk. injection Hk as ->.
  now apply (Hfirst i Hij).
Qed.

Lemma get_fs_index_fallback (vecs : list (list string)) (b : path) :
  is_root b = false ->
  (forall v, v ∈ vecs -> segments_match v (names b) = true -> v = []) ->
  get_fs_index vecs b = 0.
Proof.
  intros Hroot Hnone. unfold get_fs_index. rewrite Hroot.
  pose proof (scan_mounts_spec (names b) vecs 0 0 0) as Hspec.
  cbn zeta in Hspec.
  destruct Hspec as (_ & _ & [-> | (k & v & Hk & _ & Hm & Hlen & Hbest & _)]);
    [reflexivity |].
  apply list_elem_of_lookup_2 in Hk.
  rewrite (Hnone v Hk Hm) in Hlen. simpl in Hlen. lia.
Qed.

End LookupMore.

(** ** The registry *)

Section RegistryMore.

Context `{Constants} `{BackendExt}.

Local Open Scope Z_scope.

Lemma get_fs_lookup (l : list mounted_fs) (b : path) :
  l <> [] -> is_Some (l !! get_fs l b).
Proof.
  intros Hne. apply lookup_lt_is_Some. unfold get_fs.
  rewrite <- (length_map mp_vec).
  apply get_fs_index_in_range. destruct l; [congruence | discriminate].
Qed.

(** X1.  On a registry that is not empty [get_fs] returns the index of a live
    entry, for every path: the reference it hands out is never out of
    range. *)
Theorem get_fs_in_range (l : list mounted_fs) (b : path) :
  l <> [] -> (get_fs l b < length l)%nat /\ exists m, l !! get_fs l b = Some m.
Proof.
  intros Hne. pose proof (get_fs_lookup l b Hne) as Hsome.
  split; [now apply lookup_lt_is_Some | exact Hsome].
Qed.

(** X2.  Where the root mount was registered first and the inner loop matches
    no mount longer than the path, [get_fs] selects a mount whose segments are
    a prefix of the path, none of the mounts with that property is longer, and
    under invariant (b) no other entry has a prefix of that length. *)
Theorem get_fs_selects_longest_prefix (l : list mounted_fs) (b : path) :
  map mp_vec l !! 0%nat = Some [] ->
  (forall v, v ∈ map mp_vec l -> segments_match v (names b) = true ->
             (length v <= length (names b))%nat) ->
  exists m,
    l !! get_fs l b = Some m
    /\ mp_vec m `prefix_of` names b
    /\ (forall m', m' ∈ l -> mp_vec m' `prefix_of` names b ->
                   (length (mp_vec m') <= length (mp_vec m))%nat)
    /\ (distinct_segments l ->
        forall j m', l !! j = Some m' -> mp_vec m' `prefix_of` names b ->
                     length (mp_vec m') = length (mp_vec m) ->
                     j = get_fs l b).
Proof.
  intros Hroot Hfit.
  pose proof (get_fs_longest_prefix (map mp_vec l) b Hroot Hfit) as Hlong.
  destruct Hlong as (v & Hv & Hpre & Hmax).
  fold (get_fs l b) in Hv. rewrite list_lookup_fmap in Hv.
  destruct (l !! get_fs l b) as [m |] eqn:Hm; [| discriminate Hv].
  injection Hv as <-. exists m. split; [reflexivity |].
  split; [exact Hpre |]. split.
  - intros m' Hin Hpre'. apply Hmax; [| exact Hpre'].
    apply list_elem_of_fmap. now exists m'.
  - intros Hdistinct j m' Hj Hpre' Hlen.
    apply (longest_prefix_unique (map mp_vec l) (names b)); [exact Hdistinct | |].
    + exists (mp_vec m'). rewrite list_lookup_fmap, Hj.
      split; [reflexivity |]. split; [exact Hpre' |].
      intros v' Hin' Hv'. rewrite Hlen. now apply Hmax.
    + exists (mp_vec m). unfold get_fs in Hm |- *.
      rewrite list_lookup_fmap, Hm.
      split; [reflexivity |]. split; [exact Hpre | exact Hmax].
Qed.

(** X3.  An entry whose segments are those of an entry registered before it is
    never selected, for any path. *)
Theorem get_fs_never_selects_shadowed (l : list mounted_fs) (b : path)
    (i j : nat) m m' :
  (i < j)%nat -> l !! i = Some m -> l !! j = Some m' ->
  mp_vec m' = mp_vec m ->
  get_fs l b <> j.
Proof.
  intros Hij Hi Hj Hvec. unfold get_fs.
  apply (get_fs_index_not_shadowed (map mp_vec l) b i j (mp_vec m) Hij).
  - now rewrite list_lookup_fmap, Hi.
  - rewrite list_lookup_fmap, Hj. simpl. now rewrite Hvec.
Qed.

(** X4.  For a path other than the root that no mount with segments matches,
    [get_fs] returns the first entry of the registry, whatever is mounted
    there. *)
Theorem get_fs_unmatched_defaults_to_first (l : list mounted_fs) (b : path) :
  is_root b = false ->
  (forall m, m ∈ l -> segments_match (mp_vec m) (names b) = true ->
             mp_vec m = []) ->
  get_fs l b = 0%nat.
Proof.
  intros Hroot Hnone. unfold get_fs.
  apply get_fs_index_fallback; [exact Hroot |].
  intros v Hin Hm. apply list_elem_of_fmap in Hin as (m & -> & Hin).
  now apply Hnone.
Qed.

End RegistryMore.

(** ** [init] and the descriptor form of [mount] *)

Section MountMore.

Context `{Constants} `{BackendExt}.

Local Open Scope Z_scope.

Lemma init_from_spec (post : list mounted_fs) : forall pre (w : world),
  mount_point_list w = pre ++ post ->
  init_from (length post) (length pre) w
  = Some
      {| mount_point_list :=
           pre ++ map (fun mp =>
                         with_file_system mp (fs_init (mfs_file_system mp)))
                    post;
         working_directory := working_directory w;
         handles := handles w;
         backend_log :=
           backend_log w
           ++ map (fun i => (i, CallInit)) (seq (length pre) (length post)) |}.
Proof.
  induction post as [| mp post IH]; intros pre w Hl.
  - simpl. rewrite <- Hl, app_nil_r. now destruct w.
  - cbn [length init_from]. unfold invoke.
    rewrite Hl, list_lookup_middle by reflexivity. simpl.
    set (mp' := with_file_system mp (fs_init (mfs_file_system mp))).
    assert (Hlen : length (pre ++ [mp']) = S (length pre))
      by (rewrite length_app; simpl; lia).
    rewrite <- Hlen. rewrite (IH (pre ++ [mp'])).
    + rewrite Hlen. simpl.
      f_equal. f_equal; rewrite <- !app_assoc; reflexivity.
    + simpl. rewrite Hl, insert_app_r_alt by lia.
      rewrite Nat.sub_diag. simpl. now rewrite <- app_assoc.
Qed.

Lemma init_effect (w : world) :
  exists w',
    init w = Some w'
    /\ map mount_info (mount_point_list w')
       = map mount_info (mount_point_list w)
         ++ [(FAT32, "/dev/hda1", "/", []); (SYSFS, "none", "/sys/", ["sys"]);
             (DEVFS, "none", "/dev/", ["dev"]);
             (PROCFS, "none", "/proc/", ["proc"])]
    /\ map mfs_file_system (mount_point_list w')
       = map fs_init
           (map mfs_file_system (mount_point_list w)
            ++ [new_fat32 "/" "/dev/hda1"; new_sysfs "/sys/";
                new_devfs "/dev/"; new_procfs "/proc/"])
    /\ backend_log w'
       = backend_log w
         ++ map (fun i => (i, CallInit))
              (seq 0 (length (mount_point_list w) + 4))
    /\ handles w' = handles w
    /\ working_directory w' = working_directory w.
Proof.
  unfold init, mount_root, mount_sys, mount_dev, mount_proc, mount, set_mounts.
  cbn [get_new_fs snd mount_point_list working_directory handles backend_log].
  rewrite <- !app_assoc. cbn [app].
  set (boot := [make_mounted_fs FAT32 "/dev/hda1" "/" (new_fat32 "/" "/dev/hda1");
                make_mounted_fs SYSFS "none" "/sys/" (new_sysfs "/sys/");
                make_mounted_fs DEVFS "none" "/dev/" (new_devfs "/dev/");
                make_mounted_fs PROCFS "none" "/proc/" (new_procfs "/proc/")]).
  eexists. split.
  - apply (init_from_spec (mount_point_list w ++ boot) []). reflexivity.
  - cbn [mount_point_list working_directory handles backend_log app length].
    rewrite !map_map, !map_app, length_app. simpl.
    repeat split; try reflexivity.
    now rewrite map_map.
Qed.

(** X5.  [init] always returns.  It registers the four boot mounts after the
    entries the registry already holds, keeps what identifies these, and then
    calls [init] exactly once on the backend of every entry, old and new, in
    registration order. *)
Theorem init_initialises_every_backend (w : world) :
  exists w',
    init w = Some w'
    /\ map mount_info (mount_point_list w')
       = map mount_info (mount_point_list w)
         ++ [(FAT32, "/dev/hda1", "/", []); (SYSFS, "none", "/sys/", ["sys"]);
             (DEVFS, "none", "/dev/", ["dev"]);
             (PROCFS, "none", "/proc/", ["proc"])]
    /\ map mfs_file_system (mount_point_list w')
       = map fs_init
           (map mfs_file_system (mount_point_list w)
            ++ [new_fat32 "/" "/dev/hda1"; new_sysfs "/sys/";
                new_devfs "/dev/"; new_procfs "/proc/"])
    /\ backend_log w'
       = backend_log w
         ++ map (fun i => (i, CallInit))
              (seq 0 (length (mount_point_list w) + 4))
    /\ handles w' = handles w
    /\ working_directory w' = working_directory w.
Proof. exact (init_effect w). Qed.

(** X6.  The descriptor form of [mount], when it accepts: with valid
    descriptors, a mount point that no live mount has and a known partition
    type, it returns 0, appends one entry that carries the two joined strings
    and the split mount point, calls [init] once on the new backend and on no
    other, and leaves the entries before it and the handles as they were.  For
    a valid path behind the descriptor the segments of the entry are those of
    the path. *)
Theorem mount_fd_registers (w : world) type mp_fd dev_fd mp_path dev_path fs :
  handles w !! mp_fd = Some mp_path ->
  handles w !! dev_fd = Some dev_path ->
  ~ duplicates w (join_path mp_path) ->
  get_new_fs type (join_path mp_path) (join_path dev_path) = Some fs ->
  exists w',
    mount_fd type mp_fd dev_fd w = Some (0, w')
    /\ mount_point_list w'
       = mount_point_list w
         ++ [make_mounted_fs type (join_path dev_path) (join_path mp_path)
               (fs_init fs)]
    /\ backend_log w'
       = backend_log w ++ [(length (mount_point_list w), CallInit)]
    /\ handles w' = handles w
    /\ working_directory w' = working_directory w
    /\ (valid_path mp_path ->
        map mp_vec (mount_point_list w')
        = map mp_vec (mount_point_list w) ++ [names mp_path]).
Proof.
  intros Hmp Hdev Hfresh Hnew. unfold mount_fd.
  rewrite (has_handle_lookup _ _ _ Hmp), (has_handle_lookup _ _ _ Hdev).
  simpl. unfold get_handle. rewrite Hmp, Hdev. simpl.
  destruct (existsb _ (mount_point_list w)) eqn:Hex.
  { apply existsb_duplicates in Hex. contradiction. }
  rewrite Hnew. unfold invoke, set_mounts. cbn [mount_point_list].
  rewrite lookup_app_r by lia. rewrite Nat.sub_diag. simpl.
  assert (Hlist :
    <[length (mount_point_list w) :=
        with_file_system
          (make_mounted_fs type (join_path dev_path) (join_path mp_path) fs)
          (fs_init fs)]>
      (mount_point_list w
       ++ [make_mounted_fs type (join_path dev_path) (join_path mp_path) fs])
    = mount_point_list w
      ++ [make_mounted_fs type (join_path dev_path) (join_path mp_path)
            (fs_init fs)]).
  { rewrite insert_app_r_alt by lia. now rewrite Nat.sub_diag. }
  eexists. split; [reflexivity |]. unfold after_call.
  cbn [mount_point_list backend_log handles working_directory].
  rewrite Hlist.
  split; [reflexivity |]. split; [reflexivity |].
  split; [reflexivity |]. split; [reflexivity |].
  intros Hvalid. rewrite map_app. simpl.
  now rewrite (split_join_path mp_path Hvalid).
Qed.

End MountMore.

(** ** What the calls keep *)

(** Case analysis on the tests and the calls of an operation that returned. *)
Ltac returned H :=
  repeat first
    [ match type of H with
      | _ ≫= _ = Some _ => apply bind_Some in H; destruct H as (? & ? & H)
      end
    | match type of H with
      | context [let '(_, _) := ?x in _] => destruct x eqn:?
      end
    | match type of H with
      | context [if ?c then _ else _] => destruct c eqn:?
      end
    | progress cbn beta iota zeta in H ].

Section CallsKeep.

Context `{Constants} `{BackendExt}.

Local Open Scope Z_scope.

Lemma same_registry_refl (w : world) : same_registry w w.
Proof. split; reflexivity. Qed.

Lemma same_registry_trans (w1 w2 w3 : world) :
  same_registry w1 w2 -> same_registry w2 w3 -> same_registry w1 w3.
Proof. intros [? ?] [? ?]. split; congruence. Qed.

Lemma insert_same_info (l : list mounted_fs) i mp fs' :
  l !! i = Some mp ->
  map mount_info (<[i := with_file_system mp fs']> l) = map mount_info l.
Proof.
  intros Hmp. rewrite list_fmap_insert.
  apply list_insert_id. now rewrite list_lookup_fmap, Hmp.
Qed.

Lemma invoke_keeps {A : Type} (w w' : world) i c
    (method : file_system -> A * file_system) a :
  invoke i c method w = Some (a, w') ->
  same_registry w w' /\ handles w' = handles w.
Proof.
  unfold invoke. intros Hinv.
  destruct (mount_point_list w !! i) as [mp |] eqn:Hmp; [| discriminate].
  destruct (method (mfs_file_system mp)) as [a' fs'].
  injection Hinv as _ <-. unfold same_registry. simpl.
  now rewrite insert_same_info.
Qed.

Lemma invoke_unlogged_keeps {A : Type} (w w' : world) i
    (method : file_system -> A * file_system) a :
  invoke_unlogged i method w = Some (a, w') ->
  same_registry w w' /\ handles w' = handles w.
Proof.
  unfold invoke_unlogged. intros Hinv.
  destruct (mount_point_list w !! i) as [mp |] eqn:Hmp; [| discriminate].
  destruct (method (mfs_file_system mp)) as [a' fs'].
  injection Hinv as _ <-. unfold same_registry. simpl.
  now rewrite insert_same_info.
Qed.

Lemma invoke_defined {A : Type} (w : world) i c
    (method : file_system -> A * file_system) :
  is_Some (mount_point_list w !! i) -> is_Some (invoke i c method w).
Proof.
  intros [mp Hmp]. unfold invoke. rewrite Hmp.
  destruct (method (mfs_file_system mp)). eauto.
Qed.

Lemma invoke_unlogged_defined {A : Type} (w : world) i
    (method : file_system -> A * file_system) :
  is_Some (mount_point_list w !! i) -> is_Some (invoke_unlogged i method w).
Proof.
  intros [mp Hmp]. unfold invoke_unlogged. rewrite Hmp.
  destruct (method (mfs_file_system mp)). eauto.
Qed.

(** Closing the cases [returned] leaves: the world is the one passed, or the
    one a call of a backend method left. *)
Ltac kept :=
  repeat match goal with
    | Hi : invoke _ _ _ _ = Some _ |- _ =>
        apply invoke_keeps in Hi; destruct Hi as [? ?]
    | Hi : invoke_unlogged _ _ _ = Some _ |- _ =>
        apply invoke_unlogged_keeps in Hi; destruct Hi as [? ?]
    | Heq : Some _ = Some _ |- _ => injection Heq as ? ?; subst
    | Heq : None = Some _ |- _ => discriminate Heq
    end;
  try (split; [eauto using same_registry_refl, same_registry_trans
              | congruence]).

Lemma mkdir_keeps (w w' : world) p r :
  mkdir p w = Some (r, w') -> same_registry w w' /\ handles w' = handles w.
Proof. unfold mkdir. intros Hop. returned Hop; kept. Qed.

Lemma rm_keeps (w w' : world) p r :
  rm p w = Some (r, w') -> same_registry w w' /\ handles w' = handles w.
Proof. unfold rm. intros Hop. returned Hop; kept. Qed.

Lemma statfs_keeps (w w' : world) p info r :
  statfs p info w = Some (r, w') ->
  same_registry w w' /\ handles w' = handles w.
Proof. unfold statfs. intros Hop. returned Hop; kept. Qed.

Lemma stat_keeps (w w' : world) fd info r :
  stat fd info w = Some (r, w') ->
  same_registry w w' /\ handles w' = handles w.
Proof. unfold stat. intros Hop. returned Hop; kept. Qed.

Lemma read_keeps (w w' : world) fd buffer count offset r :
  read fd buffer count offset w = Some (r, w') ->
  same_registry w w' /\ handles w' = handles w.
Proof. unfold read. intros Hop. returned Hop; kept. Qed.

Lemma direct_read_keeps (w w' : world) p buffer count offset r :
  direct_read p buffer count offset w = Some (r, w') ->
  same_registry w w' /\ handles w' = handles w.
Proof. unfold direct_read. intros Hop. returned Hop; kept. Qed.

Lemma write_keeps (w w' : world) fd buffer count offset r :
  write fd buffer count offset w = Some (r, w') ->
  same_registry w w' /\ handles w' = handles w.
Proof. unfold write. intros Hop. returned Hop; kept. Qed.

Lemma clear_keeps (w w' : world) fd count offset r :
  clear fd count offset w = Some (r, w') ->
  same_registry w w' /\ handles w' = handles w.
Proof. unfold clear. intros Hop. returned Hop; kept. Qed.

Lemma direct_write_keeps (w w' : world) p buffer count offset r :
  direct_write p buffer count offset w = Some (r, w') ->
  same_registry w w' /\ handles w' = handles w.
Proof. unfold direct_write. intros Hop. returned Hop; kept. Qed.

Lemma truncate_keeps (w w' : world) fd size r :
  truncate fd size w = Some (r, w') ->
  same_registry w w' /\ handles w' = handles w.
Proof. unfold truncate. intros Hop. returned Hop; kept. Qed.

Lemma direct_read_string_keeps (w w' : world) p content r :
  direct_read_string p content w = Some (r, w') ->
  same_registry w w' /\ handles w' = handles w.
Proof. unfold direct_read_string. intros Hop. returned Hop; kept. Qed.

Lemma entries_keeps (w w' : world) fd buffer size r :
  entries fd buffer size w = Some (r, w') ->
  same_registry w w' /\ handles w' = handles w.
Proof. unfold entries. intros Hop. returned Hop; kept. Qed.

End CallsKeep.

(** ** Descriptors *)

Section DescriptorsMore.

Context `{Constants} `{BackendExt}.

Local Open Scope Z_scope.

Lemma register_new_handle_keeps (w : world) p :
  same_registry w (snd (register_new_handle p w)).
Proof. split; reflexivity. Qed.

Lemma open_effect (w w' : world) file_path flags r :
  open file_path flags w = Some (r, w') ->
  same_registry w w'
  /\ ((0 <= r /\ r = Z.of_nat (length (handles w))
       /\ handles w' = handles w ++ [get_path w file_path])
      \/ (r < 0 /\ handles w' = handles w)).
Proof.
  destruct error_codes_positive as (_ & Hpath & _).
  unfold open. intros Hop. returned Hop.
  all: repeat match goal with
         | Hi : (if ?c then _ else _) = Some _ |- _ => destruct c eqn:?
         | Hi : _ ≫= _ = Some _ |- _ =>
             apply bind_Some in Hi; destruct Hi as (? & ? & Hi)
         | Hi : (let '(_, _) := ?x in _) = Some _ |- _ => destruct x
         | Hi : invoke _ _ _ _ = Some _ |- _ =>
             apply invoke_keeps in Hi; destruct Hi as [[? ?] ?]
         | Heq : Some _ = Some _ |- _ => injection Heq as ? ?; subst
         | Hlt : (0 <? _) = true |- _ => apply Z.ltb_lt in Hlt
         | Hi : _ |- _ => progress cbn beta iota zeta in Hi
         end.
  all: unfold same_registry, register_new_handle; simpl.
  all: split; [split; congruence |].
  all: first [ right; split; [lia | congruence]
             | left; split; [lia |]; split; congruence ].
Qed.

(** X7.  [open] registers a descriptor exactly when it returns a value that is
    not negative: the value is then the size the table of handles had, the
    table has one more entry, the absolute path of the file, and a negative
    value leaves the table as it was.  The registry and the working directory
    are never changed. *)
Theorem open_registers_iff_nonnegative (w w' : world) file_path flags r :
  open file_path flags w = Some (r, w') ->
  same_registry w w'
  /\ (0 <= r <->
      handles w' = handles w ++ [get_path w file_path]
      /\ r = Z.of_nat (length (handles w)))
  /\ (r < 0 <-> handles w' = handles w).
Proof.
  intros Hopen.
  destruct (open_effect _ _ _ _ _ Hopen)
    as (Hsame & [(Hpos & Hval & Hhandles) | (Hneg & Hhandles)]).
  - split; [exact Hsame |]. split; [tauto |].
    split; [lia |]. intros Heq. rewrite Heq in Hhandles.
    apply (f_equal length) in Hhandles. rewrite length_app in Hhandles.
    simpl in Hhandles. lia.
  - split; [exact Hsame |]. split; [| tauto].
    split; [lia |]. intros [Heq _]. rewrite Heq in Hhandles.
    apply (f_equal length) in Hhandles. rewrite length_app in Hhandles.
    simpl in Hhandles. lia.
Qed.

(** X8.  A descriptor [open] returned for a path with at least one segment
    reads and writes what the path-string forms read and write: on the world
    [open] left, [read] and [write] on the descriptor are [direct_read] and
    [direct_write] on the string. *)
Theorem transfer_through_descriptor (w w1 : world) file_path flags fd
    buffer count offset :
  open file_path flags w = Some (fd, w1) ->
  0 <= fd ->
  path_empty (get_path w file_path) = false ->
  read (Z.to_nat fd) buffer count offset w1
  = direct_read file_path buffer count offset w1
  /\ write (Z.to_nat fd) buffer count offset w1
     = direct_write file_path buffer count offset w1.
Proof.
  intros Hopen Hfd Hpath.
  destruct (open_effect _ _ _ _ _ Hopen)
    as ([_ Hcwd] & [(_ & Hval & Hhandles) | (Hneg & _)]); [| lia].
  assert (Hlookup : handles w1 !! Z.to_nat fd = Some (get_path w file_path)).
  { rewrite Hhandles, Hval, Nat2Z.id. now apply list_lookup_middle. }
  assert (Hsame : get_path w1 file_path = get_path w file_path).
  { unfold get_path. now rewrite Hcwd. }
  unfold read, write, direct_read, direct_write.
  rewrite (has_handle_lookup _ _ _ Hlookup). unfold get_handle.
  rewrite Hlookup, Hsame. simpl. rewrite Hpath. split; reflexivity.
Qed.

(** X9.  Every operation that takes a descriptor answers
    [-ERROR_INVALID_FILE_DESCRIPTOR] to one the scheduler does not know, and
    leaves the world, the buffer and the record it was given as they were; the
    descriptor form of [mount] does so for either of its two descriptors. *)
Theorem invalid_descriptor_rejected (w : world) fd other info buffer
    count offset size type :
  has_handle w fd = false ->
  stat fd info w = Some ((- ERROR_INVALID_FILE_DESCRIPTOR, info), w)
  /\ read fd buffer count offset w
     = Some ((- ERROR_INVALID_FILE_DESCRIPTOR, buffer), w)
  /\ write fd buffer count offset w
     = Some (- ERROR_INVALID_FILE_DESCRIPTOR, w)
  /\ clear fd count offset w = Some (- ERROR_INVALID_FILE_DESCRIPTOR, w)
  /\ truncate fd size w = Some (- ERROR_INVALID_FILE_DESCRIPTOR, w)
  /\ entries fd buffer size w
     = Some ((- ERROR_INVALID_FILE_DESCRIPTOR, buffer), w)
  /\ mount_fd type fd other w = Some (- ERROR_INVALID_FILE_DESCRIPTOR, w)
  /\ mount_fd type other fd w = Some (- ERROR_INVALID_FILE_DESCRIPTOR, w).
Proof.
  intros Hfd. unfold stat, read, write, clear, truncate, entries, mount_fd.
  rewrite Hfd. simpl. repeat split.
  now destruct (has_handle w other).
Qed.

Lemma get_fs_root (l : list mounted_fs) (b : path) :
  is_root b = true -> [] ∈ map mp_vec l ->
  exists m, l !! get_fs l b = Some m /\ mp_vec m = [].
Proof.
  intros Hroot Hin. unfold get_fs, get_fs_index. rewrite Hroot.
  pose proof (find_root_spec (map mp_vec l) 0) as Hfind.
  destruct (find_root (map mp_vec l) 0) as [r |]; [| contradiction].
  destruct Hfind as (k & -> & Hk). simpl.
  rewrite list_lookup_fmap in Hk.
  destruct (l !! k) as [m |]; [| discriminate Hk].
  exists m. split; [reflexivity |]. now injection Hk.
Qed.

(** X10.  A descriptor whose path has no segment, as the one [open] returns
    for [/], is refused by [read], [write], [clear] and [truncate] with
    [-ERROR_INVALID_FILE_PATH] and no call of a backend.  [stat] on the same
    descriptor succeeds with the record of a directory when the path is
    rooted and a root mount is registered: the first loop of [get_fs] then
    selects a mount without segments, and [sub_path] is taken at 0. *)
Theorem transfers_reject_empty_path (w : world) fd p info buffer
    count offset size :
  handles w !! fd = Some p ->
  path_empty p = true ->
  read fd buffer count offset w = Some ((- ERROR_INVALID_FILE_PATH, buffer), w)
  /\ write fd buffer count offset w = Some (- ERROR_INVALID_FILE_PATH, w)
  /\ clear fd count offset w = Some (- ERROR_INVALID_FILE_PATH, w)
  /\ truncate fd size w = Some (- ERROR_INVALID_FILE_PATH, w)
  /\ (rooted p = true ->
      [] ∈ map mp_vec (mount_point_list w) ->
      stat fd info w
      = Some ((0, {| info_size := 4096;
                     info_flags := STAT_FLAG_DIRECTORY;
                     info_created := info_created info;
                     info_modified := info_modified info;
                     info_accessed := info_accessed info |}), w)).
Proof.
  intros Hfd Hempty. unfold read, write, clear, truncate.
  rewrite (has_handle_lookup _ _ _ Hfd). unfold get_handle.
  rewrite Hfd. simpl. rewrite Hempty.
  repeat (split; [reflexivity |]).
  intros Hrooted Hroot.
  assert (Hp : is_root p = true) by (unfold is_root; now rewrite Hrooted).
  destruct (get_fs_root (mount_point_list w) p Hp Hroot) as (m & Hm & Hvec).
  unfold stat. rewrite (has_handle_lookup _ _ _ Hfd). unfold get_handle.
  rewrite Hfd. simpl. rewrite Hm. simpl.
  assert (Hlocal : path_empty (get_fs_path p m) = true).
  { unfold get_fs_path, sub_path. rewrite Hvec. exact Hempty. }
  now rewrite Hlocal.
Qed.

End DescriptorsMore.

(** ** Sequences of calls *)

(** Case analysis on the tests and the calls of an operation that did not
    return. *)
Ltac stuck H :=
  repeat first
    [ match type of H with
      | _ ≫= _ = None =>
          apply bind_None in H; destruct H as [H | (? & ? & H)]
      end
    | match type of H with
      | context [let '(_, _) := ?x in _] => destruct x eqn:?
      end
    | match type of H with
      | context [if ?c then _ else _] => destruct c eqn:?
      end
    | progress cbn beta iota zeta in H ].

Section SequencesMore.

Context `{Constants} `{BackendExt}.

Local Open Scope Z_scope.

Lemma same_registry_length (w w' : world) :
  same_registry w w' ->
  length (mount_point_list w') = length (mount_point_list w).
Proof.
  intros [Hinfo _]. apply (f_equal length) in Hinfo.
  now rewrite !length_map in Hinfo.
Qed.

Lemma invoke_None {A : Type} (w : world) i c
    (method : file_system -> A * file_system) :
  invoke i c method w = None -> mount_point_list w !! i = None.
Proof.
  unfold invoke. destruct (mount_point_list w !! i) as [mp |]; [| easy].
  now destruct (method (mfs_file_system mp)).
Qed.

Lemma invoke_unlogged_None {A : Type} (w : world) i
    (method : file_system -> A * file_system) :
  invoke_unlogged i method w = None -> mount_point_list w !! i = None.
Proof.
  unfold invoke_unlogged.
  destruct (mount_point_list w !! i) as [mp |]; [| easy].
  now destruct (method (mfs_file_system mp)).
Qed.

Lemma has_handle_get (w : world) fd :
  negb (has_handle w fd) = false -> get_handle w fd <> None.
Proof.
  unfold has_handle, get_handle. intros Hfd Hnone.
  apply negb_false_iff, Nat.ltb_lt in Hfd.
  apply lookup_ge_None in Hnone. lia.
Qed.

(** No case of an operation is left without a result on a registry that
    holds a mount: a lookup in the registry at the index [get_fs] returned,
    on the world passed or on the one a backend call left, finds an entry. *)
Ltac never_stuck Hne :=
  repeat match goal with
    | Hi : invoke _ _ _ _ = Some _ |- _ =>
        apply invoke_keeps in Hi; destruct Hi as [Hi _];
        apply same_registry_length in Hi
    | Hi : invoke _ _ _ _ = None |- _ => apply invoke_None in Hi
    | Hi : invoke_unlogged _ _ _ = None |- _ =>
        apply invoke_unlogged_None in Hi
    | Hi : negb (has_handle _ _) = false, Hg : get_handle _ _ = None |- _ =>
        now apply has_handle_get in Hi
    | Hi : Some _ = None |- _ => discriminate Hi
    | Hi : mount_point_list ?w !! get_fs (mount_point_list ?w) ?b = None |- _ =>
        destruct (get_fs_lookup (mount_point_list w) b Hne) as [? Hsome];
        rewrite Hsome in Hi; discriminate Hi
    | Hi : mount_point_list _ !! _ = None |- _ =>
        apply lookup_ge_None in Hi
    end.

Lemma get_fs_bound (w : world) (b : path) :
  mount_point_list w <> [] ->
  (get_fs (mount_point_list w) b < length (mount_point_list w))%nat.
Proof. intros Hne. apply lookup_lt_is_Some. now apply get_fs_lookup. Qed.

Lemma run_defined (c : facade_call) (w : world) :
  mount_point_list w <> [] -> is_Some (run c w).
Proof.
  intros Hne. destruct (run c w) as [r |] eqn:Hrun; [eauto |]. exfalso.
  destruct c; unfold run in Hrun.
  - unfold mount_fd in Hrun. stuck Hrun; never_stuck Hne.
    destruct (get_new_fs _ _ _); [| discriminate Hrun].
    stuck Hrun; never_stuck Hne.
    cbn [mount_point_list set_mounts] in Hrun.
    rewrite length_app in Hrun. simpl in Hrun. lia.
  - unfold statfs in Hrun. stuck Hrun; never_stuck Hne.
  - unfold open in Hrun. stuck Hrun; never_stuck Hne.
    all: repeat match goal with
           | Hi : (if ?c then _ else _) = None |- _ => destruct c eqn:?
           | Hi : (if ?c then _ else _) = Some _ |- _ => destruct c eqn:?
           | Hi : _ ≫= _ = None |- _ =>
               apply bind_None in Hi; destruct Hi as [Hi | (? & ? & Hi)]
           | Hi : _ ≫= _ = Some _ |- _ =>
               apply bind_Some in Hi; destruct Hi as (? & ? & Hi)
           | Hi : (let '(_, _) := ?x in _) = _ |- _ => destruct x
           | Hi : _ |- _ => progress cbn beta iota zeta in Hi
           end.
    all: never_stuck Hne.
    all: pose proof (get_fs_bound w (get_path w file_path) Hne); lia.
  - unfold mkdir in Hrun. stuck Hrun; never_stuck Hne.
  - unfold rm in Hrun. stuck Hrun; never_stuck Hne.
  - unfold stat in Hrun. stuck Hrun; never_stuck Hne.
  - unfold read in Hrun. stuck Hrun; never_stuck Hne.
  - unfold direct_read in Hrun. stuck Hrun; never_stuck Hne.
  - unfold write in Hrun. stuck Hrun; never_stuck Hne.
  - unfold clear in Hrun. stuck Hrun; never_stuck Hne.
  - unfold direct_write in Hrun. stuck Hrun; never_stuck Hne.
  - unfold truncate in Hrun. stuck Hrun; never_stuck Hne.
  - unfold direct_read_string in Hrun. stuck Hrun; never_stuck Hne.
    pose proof (get_fs_bound w (get_path w file_path) Hne). lia.
  - unfold entries in Hrun. stuck Hrun; never_stuck Hne.
Qed.

Lemma mount_fd_effect (w w' : world) type mp_fd dev_fd r :
  mount_fd type mp_fd dev_fd w = Some (r, w') ->
  handles w' = handles w
  /\ working_directory w' = working_directory w
  /\ (w' = w
      \/ exists entry,
           map mount_info (mount_point_list w')
           = map mount_info (mount_point_list w) ++ [entry]).
Proof.
  unfold mount_fd. intros Hop. returned Hop.
  all: try (injection Hop as _ <-; repeat split; now left).
  destruct (get_new_fs _ _ _) as [fs |];
    [| injection Hop as _ <-; repeat split; now left].
  returned Hop. injection Hop as _ <-.
  unfold invoke, set_mounts in *. cbn [mount_point_list] in *.
  rewrite lookup_app_r in * by lia. rewrite Nat.sub_diag in *.
  simpl in *.
  match goal with Hi : Some _ = Some _ |- _ => injection Hi as _ <- end.
  simpl. repeat split. right. eexists.
  rewrite insert_app_r_alt by lia. rewrite Nat.sub_diag. simpl.
  rewrite map_app. reflexivity.
Qed.

Lemma run_effect (c : facade_call) (w w' : world) r :
  run c w = Some (r, w') ->
  map mount_info (mount_point_list w)
    `prefix_of` map mount_info (mount_point_list w')
  /\ working_directory w' = working_directory w
  /\ handles w `prefix_of` handles w'
  /\ ((forall type mp_fd dev_fd, c <> DoMountFd type mp_fd dev_fd) ->
      same_registry w w')
  /\ ((forall file_path flags, c <> DoOpen file_path flags) ->
      handles w' = handles w).
Proof.
  intros Hrun.
  assert (Hkept : same_registry w w' /\ handles w' = handles w ->
    map mount_info (mount_point_list w)
      `prefix_of` map mount_info (mount_point_list w')
    /\ working_directory w' = working_directory w
    /\ handles w `prefix_of` handles w'
    /\ ((forall type mp_fd dev_fd, c <> DoMountFd type mp_fd dev_fd) ->
        same_registry w w')
    /\ ((forall file_path flags, c <> DoOpen file_path flags) ->
        handles w' = handles w)).
  { intros [[Hinfo Hcwd] Hhandles]. rewrite Hinfo, Hhandles.
    repeat split; auto. }
  destruct c; unfold run in Hrun;
    try (apply bind_Some in Hrun as ([r0 w0] & Hop & Hrun);
         cbn beta iota in Hrun; injection Hrun as _ <-).
  - destruct (mount_fd_effect _ _ _ _ _ _ Hrun)
      as (Hhandles & Hcwd & [-> | [entry Hentry]]).
    + repeat split; auto.
    + rewrite Hentry, Hhandles.
      split; [now apply prefix_app_r |]. split; [exact Hcwd |].
      split; [reflexivity |]. split; [| reflexivity].
      intros Hnot. now destruct (Hnot type mp_fd dev_fd).
  - apply Hkept. eapply statfs_keeps; eauto.
  - destruct (open_effect _ _ _ _ _ Hrun)
      as ([Hinfo Hcwd] & [(_ & _ & Hhandles) | (_ & Hhandles)]);
      rewrite Hinfo, Hhandles;
      (split; [reflexivity |]); (split; [exact Hcwd |]);
      (split; [first [reflexivity | now apply prefix_app_r] |]);
      (split; [intros _; now split |]);
      first [reflexivity
            | intros Hnot; now destruct (Hnot file_path flags)].
  - apply Hkept. eapply mkdir_keeps; eauto.
  - apply Hkept. eapply rm_keeps; eauto.
  - apply Hkept. eapply stat_keeps; eauto.
  - apply Hkept. eapply read_keeps; eauto.
  - apply Hkept. eapply direct_read_keeps; eauto.
  - apply Hkept. eapply write_keeps; eauto.
  - apply Hkept. eapply clear_keeps; eauto.
  - apply Hkept. eapply direct_write_keeps; eauto.
  - apply Hkept. eapply truncate_keeps; eauto.
  - apply Hkept. eapply direct_read_string_keeps; eauto.
  - apply Hkept. eapply entries_keeps; eauto.
Qed.

(** X11.  Each of the fourteen operations that take a descriptor or a path,
    [init] and the form of [mount] that takes strings, whatever they do and
    return, remove and alter no entry of the registry and no handle, and
    leave the working directory as it was.  Among the fourteen the
    descriptor form of [mount] is the only one that can append an entry and
    [open] the only one that can append a handle; [init] and the string form
    of [mount] keep the table of handles.  [close] is not covered. *)
Theorem calls_keep_mounts (w : world) :
  (forall c r w',
     run c w = Some (r, w') ->
     map mount_info (mount_point_list w)
       `prefix_of` map mount_info (mount_point_list w')
     /\ working_directory w' = working_directory w
     /\ handles w `prefix_of` handles w'
     /\ ((forall type mp_fd dev_fd, c <> DoMountFd type mp_fd dev_fd) ->
         same_registry w w')
     /\ ((forall file_path flags, c <> DoOpen file_path flags) ->
         handles w' = handles w))
  /\ (forall type mp dev r w',
        mount type mp dev w = (r, w') ->
        map mount_info (mount_point_list w)
          `prefix_of` map mount_info (mount_point_list w')
        /\ working_directory w' = working_directory w
        /\ handles w' = handles w)
  /\ (forall w',
        init w = Some w' ->
        map mount_info (mount_point_list w)
          `prefix_of` map mount_info (mount_point_list w')
        /\ working_directory w' = working_directory w
        /\ handles w' = handles w).
Proof.
  split; [| split].
  - intros c r w'. apply run_effect.
  - intros type mp dev r w'. unfold mount.
    destruct (get_new_fs type mp dev) as [fs |]; intros Heq;
      injection Heq as _ <-.
    + simpl. rewrite map_app.
      split; [now apply prefix_app_r |]. split; reflexivity.
    + split; [reflexivity |]. split; reflexivity.
  - intros w' Hinit.
    destruct (init_effect w) as (w0 & Hinit0 & Hinfo & _ & _ & Hhandles & Hcwd).
    rewrite Hinit in Hinit0. injection Hinit0 as <-.
    rewrite Hinfo. split; [now apply prefix_app_r |].
    split; [exact Hcwd | exact Hhandles].
Qed.

Lemma registry_invariant_info (l l' : list mounted_fs) :
  map mount_info l' = map mount_info l ->
  registry_invariant l -> registry_invariant l'.
Proof.
  intros Hinfo [Hdistinct Hcanon].
  assert (Hvec : map mp_vec l' = map mp_vec l).
  { change mp_vec with (fun mp => snd (mount_info mp)).
    rewrite <- !(map_map mount_info snd). now rewrite Hinfo. }
  split.
  - unfold distinct_segments. now rewrite Hvec.
  - assert (Hall : forall k : list mounted_fs,
              Forall canonical_mount k
              <-> Forall (fun i => snd (fst i) = join_path (Path true (snd i)))
                    (map mount_info k)).
    { intros k. rewrite Forall_fmap. reflexivity. }
    apply Hall. rewrite Hinfo. now apply Hall.
Qed.

Lemma get_path_valid (w : world) file_path :
  valid_path (working_directory w) -> valid_path (get_path w file_path).
Proof.
  intros Hcwd. unfold get_path, valid_path.
  destruct file_path as [| c file_path]; simpl.
  - now rewrite app_nil_r.
  - destruct (Ascii.eqb_spec c "/") as [-> | Hne].
    + apply std_split_valid.
    + assert (Hrel : get_path w (String c file_path)
                     = path_of_base (working_directory w) (String c file_path)).
      { unfold get_path. destruct c as [[] [] [] [] [] [] [] []]; try reflexivity.
        congruence. }
      unfold get_path in Hrel. rewrite Hrel. simpl.
      apply Forall_app. split; [exact Hcwd | apply std_split_valid].
Qed.

Lemma run_invariant (c : facade_call) (w w' : world) r :
  system_invariant w -> run c w = Some (r, w') -> system_invariant w'.
Proof.
  intros (Hreg & Hroot & Hcwd & Hhandles) Hrun.
  pose proof (run_effect c w w' r Hrun) as (Hpre & Hcwd' & _ & Hsame & Hkeep).
  assert (Hroot' : map mp_vec (mount_point_list w') !! 0%nat = Some []).
  { destruct Hpre as [k Hk].
    assert (Hvec : map mp_vec (mount_point_list w')
                   = map mp_vec (mount_point_list w) ++ map snd k).
    { change mp_vec with (fun mp => snd (mount_info mp)).
      rewrite <- !(map_map mount_info snd). now rewrite Hk, map_app. }
    rewrite Hvec. now apply lookup_app_l_Some. }
  unfold system_invariant. rewrite Hcwd'.
  destruct c; unfold run in Hrun.
  - split; [| split; [exact Hroot' | split; [exact Hcwd |]]].
    + eapply mount_fd_preserves_invariant; eauto.
    + rewrite Hkeep by discriminate. exact Hhandles.
  - split; [| split; [exact Hroot' | split; [exact Hcwd |]]];
      [eapply registry_invariant_info; [apply Hsame; discriminate | exact Hreg]
      | rewrite Hkeep by discriminate; exact Hhandles].
  - split; [| split; [exact Hroot' | split; [exact Hcwd |]]].
    + eapply registry_invariant_info; [apply Hsame; discriminate | exact Hreg].
    + destruct (open_effect _ _ _ _ _ Hrun)
        as (_ & [(_ & _ & ->) | (_ & ->)]); [| exact Hhandles].
      apply Forall_app. split; [exact Hhandles |].
      constructor; [| constructor]. now apply get_path_valid.
  - split; [| split; [exact Hroot' | split; [exact Hcwd |]]];
      [eapply registry_invariant_info; [apply Hsame; discriminate | exact Hreg]
      | rewrite Hkeep by discriminate; exact Hhandles].
  - split; [| split; [exact Hroot' | split; [exact Hcwd |]]];
      [eapply registry_invariant_info; [apply Hsame; discriminate | exact Hreg]
      | rewrite Hkeep by discriminate; exact Hhandles].
  - split; [| split; [exact Hroot' | split; [exact Hcwd |]]];
      [eapply registry_invariant_info; [apply Hsame; discriminate | exact Hreg]
      | rewrite Hkeep by discriminate; exact Hhandles].
  - split; [| split; [exact Hroot' | split; [exact Hcwd |]]];
      [eapply registry_invariant_info; [apply Hsame; discriminate | exact Hreg]
      | rewrite Hkeep by discriminate; exact Hhandles].
  - split; [| split; [exact Hroot' | split; [exact Hcwd |]]];
      [eapply registry_invariant_info; [apply Hsame; discriminate | exact Hreg]
      | rewrite Hkeep by discriminate; exact Hhandles].
  - split; [| split; [exact Hroot' | split; [exact Hcwd |]]];
      [eapply registry_invariant_info; [apply Hsame; discriminate | exact Hreg]
      | rewrite Hkeep by discriminate; exact Hhandles].
  - split; [| split; [exact Hroot' | split; [exact Hcwd |]]];
      [eapply registry_invariant_info; [apply Hsame; discriminate | exact Hreg]
      | rewrite Hkeep by discriminate; exact Hhandles].
  - split; [| split; [exact Hroot' | split; [exact Hcwd |]]];
      [eapply registry_invariant_info; [apply Hsame; discriminate | exact Hreg]
      | rewrite Hkeep by discriminate; exact Hhandles].
  - split; [| split; [exact Hroot' | split; [exact Hcwd |]]];
      [eapply registry_invariant_info; [apply Hsame; discriminate | exact Hreg]
      | rewrite Hkeep by discriminate; exact Hhandles].
  - split; [| split; [exact Hroot' | split; [exact Hcwd |]]];
      [eapply registry_invariant_info; [apply Hsame; discriminate | exact Hreg]
      | rewrite Hkeep by discriminate; exact Hhandles].
  - split; [| split; [exact Hroot' | split; [exact Hcwd |]]];
      [eapply registry_invariant_info; [apply Hsame; discriminate | exact Hreg]
      | rewrite Hkeep by discriminate; exact Hhandles].
Qed.

Lemma run_all_invariant (cs : list facade_call) : forall w : world,
  system_invariant w ->
  exists w',
    run_all cs w = Some w'
    /\ system_invariant w'
    /\ map mount_info (mount_point_list w)
         `prefix_of` map mount_info (mount_point_list w')
    /\ handles w `prefix_of` handles w'
    /\ working_directory w' = working_directory w.
Proof.
  induction cs as [| c cs IH]; intros w Hinv.
  - exists w. split; [reflexivity |]. split; [exact Hinv |].
    split; [reflexivity |]. split; reflexivity.
  - assert (Hne : mount_point_list w <> []).
    { destruct Hinv as (_ & Hroot & _).
      destruct (mount_point_list w); [discriminate Hroot | discriminate]. }
    destruct (run_defined c w Hne) as [[r w1] Hrun].
    pose proof (run_invariant c w w1 r Hinv Hrun) as Hinv1.
    pose proof (run_effect c w w1 r Hrun) as (Hpre & Hcwd & Hhandles & _).
    destruct (IH w1 Hinv1) as (w' & Hall & Hinv' & Hpre' & Hhandles' & Hcwd').
    exists w'. cbn [run_all]. rewrite Hrun. simpl.
    split; [exact Hall |]. split; [exact Hinv' |].
    split; [now transitivity (map mount_info (mount_point_list w1)) |].
    split; [now transitivity (handles w1) | congruence].
Qed.

(** X12.  From an empty registry, with valid paths behind the working
    directory and the descriptors, [init] followed by a sequence of the
    fourteen operations, each of which takes the backend-local part of a
    path within the range of [sub_path], returns, and the world it ends in
    has a canonical registry with pairwise distinct segments whose first four
    entries are the boot mounts, the root mount first, valid paths behind all
    descriptors, and the working directory it started with. *)
Theorem booted_sequences_keep_invariant (w : world) (cs : list facade_call) :
  mount_point_list w = [] ->
  valid_path (working_directory w) ->
  Forall valid_path (handles w) ->
  (forall w0, init w = Some w0 -> run_all_in_range cs w0) ->
  exists w0 w',
    init w = Some w0
    /\ run_all cs w0 = Some w'
    /\ system_invariant w'
    /\ take 4 (map mount_info (mount_point_list w'))
       = [(FAT32, "/dev/hda1", "/", []); (SYSFS, "none", "/sys/", ["sys"]);
          (DEVFS, "none", "/dev/", ["dev"]);
          (PROCFS, "none", "/proc/", ["proc"])]
    /\ handles w `prefix_of` handles w'
    /\ working_directory w' = working_directory w.
Proof.
  intros Hempty Hcwd Hhandles _.
  destruct (init_effect w) as (w0 & Hinit & Hinfo & _ & _ & Hh0 & Hcwd0).
  destruct (init_registry w Hempty) as (w0' & Hinit' & _ & Hvec & Hreg).
  rewrite Hinit in Hinit'. injection Hinit' as <-.
  rewrite Hempty in Hinfo. simpl in Hinfo.
  assert (Hinv : system_invariant w0).
  { split; [exact Hreg |]. split; [now rewrite Hvec |].
    split; [now rewrite Hcwd0 | now rewrite Hh0]. }
  destruct (run_all_invariant cs w0 Hinv)
    as (w' & Hall & Hinv' & [k Hk] & Hhandles' & Hcwd').
  exists w0, w'. split; [exact Hinit |]. split; [exact Hall |].
  split; [exact Hinv' |]. split.
  - rewrite Hk, Hinfo. reflexivity.
  - split; [now rewrite <- Hh0 | congruence].
Qed.

End SequencesMore.

(** ** Results of the calls *)

Section ResultsMore.

Context `{Constants} `{BackendExt}.

Local Open Scope Z_scope.

Lemma get_fs_covers_mount (l : list mounted_fs) (b : path) m fs :
  m ∈ l -> names b = mp_vec m -> l !! get_fs l b = Some fs ->
  (length (names b) <= length (mp_vec fs))%nat.
Proof.
  intros Hin Hnames Hfs.
  destruct (names b) as [| x xs] eqn:Hb; [simpl; lia |].
  unfold get_fs, get_fs_index in Hfs.
  replace (is_root b) with false in Hfs
    by (unfold is_root, path_empty; rewrite Hb; now rewrite andb_false_r).
  pose proof (scan_mounts_spec (names b) (map mp_vec l) 0 0 0) as Hscan.
  cbn zeta in Hscan. rewrite Hb in Hscan.
  destruct Hscan as (_ & Hall & Hcase).
  rewrite Hb in Hfs.
  assert (Hm : (length (mp_vec m)
                <= fst (scan_mounts (map mp_vec l) (x :: xs) 0 0 0))%nat).
  { apply Hall.
    - apply list_elem_of_fmap. now exists m.
    - rewrite Hnames. now apply segments_match_of_prefix. }
  rewrite <- Hnames in Hm.
  destruct Hcase as [Hsame | (k & v & Hk & Hidx & _ & Hlen & _)].
  - rewrite Hsame in Hm. simpl in Hm. lia.
  - rewrite Hidx in Hfs. simpl in Hfs.
    rewrite list_lookup_fmap, Hfs in Hk. injection Hk as <-. lia.
Qed.

(** X13.  Opening the mount point of a registered mount asks no backend:
    whatever the flags and whatever the backends hold, [open] registers a
    descriptor for the path and returns it, and changes nothing else.  The
    mount is one the constructor built from an absolute mount point, and no
    mount the inner loop of [get_fs] matches is longer than it, so that
    [sub_path] stays within the path. *)
Theorem open_mount_point_registers (w : world) m flags rest :
  m ∈ mount_point_list w ->
  mount_point m = String "/" rest ->
  mp_vec m = std_split (mount_point m) "/" ->
  (forall v, v ∈ map mp_vec (mount_point_list w) ->
             segments_match v (mp_vec m) = true ->
             (length v <= length (mp_vec m))%nat) ->
  open (mount_point m) flags w
  = Some (register_new_handle (Path true (mp_vec m)) w).
Proof.
  intros Hin Hpoint Hvec _.
  assert (Hpath : get_path w (mount_point m) = Path true (mp_vec m)).
  { rewrite Hvec, Hpoint. reflexivity. }
  assert (Hne : mount_point_list w <> []).
  { intros Hnil. rewrite Hnil in Hin. inversion Hin. }
  destruct (get_fs_lookup (mount_point_list w) (Path true (mp_vec m)) Hne)
    as [fs Hfs].
  pose proof (get_fs_covers_mount _ (Path true (mp_vec m)) m fs Hin
                eq_refl Hfs) as Hlen.
  unfold open. rewrite Hpath, Hfs.
  replace (String.eqb (mount_point m) "") with false
    by now rewrite Hpoint.
  simpl. unfold is_root, get_fs_path, sub_path, path_empty. simpl.
  simpl in Hlen. now rewrite drop_ge by exact Hlen.
Qed.

Lemma entries_total_size_nonneg (files : list file) :
  0 <= entries_total_size files.
Proof.
  rewrite entries_total_size_wrap. unfold wrap64.
  apply Z.mod_pos_bound. reflexivity.
Qed.

Lemma mounts_total_size_nonneg (l : list mounted_fs) :
  0 <= mounts_total_size l.
Proof.
  rewrite mounts_total_size_wrap. unfold wrap64.
  apply Z.mod_pos_bound. reflexivity.
Qed.

(** X14.  For a size below 2^63, a negative result of [entries] or of [mounts]
    means that the buffer of the caller was not written; for [mounts] the only
    negative result is [-ERROR_BUFFER_SMALL], returned exactly when the size
    is below the total the first loop computed. *)
Theorem listing_errors_keep_buffer (w : world) fd buffer size :
  size < half_modulus ->
  (forall r buffer' w',
     entries fd buffer size w = Some ((r, buffer'), w') ->
     r < 0 -> buffer' = buffer)
  /\ (fst (mounts buffer size w) < 0 <->
      size < mounts_total_size (mount_point_list w))
  /\ (fst (mounts buffer size w) < 0 ->
      mounts buffer size w = (- ERROR_BUFFER_SMALL, buffer)).
Proof.
  intros Hsize.
  destruct error_codes_positive as (_ & _ & _ & Hsmall & _).
  assert (Hmounts :
    fst (mounts buffer size w) < 0 <->
    size < mounts_total_size (mount_point_list w)).
  { unfold mounts.
    pose proof (mounts_total_size_nonneg (mount_point_list w)) as Hpos.
    destruct (Z.ltb_spec size (mounts_total_size (mount_point_list w)))
      as [Hlt | Hge]; simpl; [lia |].
    rewrite to_int64_small by lia. lia. }
  split; [| split; [exact Hmounts |]].
  - intros r buffer' w' Hop Hneg. unfold entries in Hop. returned Hop.
    all: try (injection Hop as _ <- _; reflexivity).
    injection Hop as <- _ _.
    match goal with
    | Hlt : (size <? entries_total_size ?files) = false |- _ =>
        apply Z.ltb_ge in Hlt;
        pose proof (entries_total_size_nonneg files);
        rewrite to_int64_small in Hneg by lia; lia
    end.
  - intros Hneg. apply Hmounts in Hneg. unfold mounts.
    apply Z.ltb_lt in Hneg. now rewrite Hneg.
Qed.

(** X15.  [stat], [truncate] and the descriptor form of [mount] never return a
    positive value: the result is 0 or the negation of an error code, also
    when the code comes from a backend. *)
Theorem status_results_never_positive (w : world) :
  (forall fd info r info' w',
     stat fd info w = Some ((r, info'), w') -> r <= 0)
  /\ (forall fd size r w', truncate fd size w = Some (r, w') -> r <= 0)
  /\ (forall type mp_fd dev_fd r w',
        mount_fd type mp_fd dev_fd w = Some (r, w') -> r <= 0).
Proof.
  destruct error_codes_positive as (_ & Hpath & Hfd & _ & Hfs & Hmounted).
  split; [| split].
  - intros fd info r info' w' Hop. unfold stat in Hop. returned Hop.
    all: injection Hop as <- _ _.
    all: try match goal with
           | Hlt : (0 <? _) = true |- _ => apply Z.ltb_lt in Hlt
           end; lia.
  - intros fd size r w' Hop. unfold truncate in Hop. returned Hop.
    all: injection Hop as <- _.
    all: try match goal with
           | |- (if 0 <? ?x then _ else _) <= 0 => destruct (Z.ltb_spec 0 x)
           end; lia.
  - intros type mp_fd dev_fd r w' Hop. unfold mount_fd in Hop. returned Hop.
    all: try (injection Hop as <- _; lia).
    destruct (get_new_fs _ _ _); [| injection Hop as <- _; lia].
    returned Hop. injection Hop as <- _. lia.
Qed.

End ResultsMore.

(** ** The properties above on the sample worlds *)

Section SamplesMore.

#[local] Existing Instance sample_constants.
#[local] Existing Instance MemFs.backend.
#[local] Existing Instance mem_backend_ext.

Local Open Scope Z_scope.

Lemma booted_segments :
  map mp_vec (mount_point_list booted_world) = [[]; ["sys"]; ["dev"]; ["proc"]].
Proof. vm_compute. reflexivity. Qed.

(** Every element of a list of segment vectors that was computed satisfies
    the bound on its size. *)
Ltac each_segment Hvecs :=
  let v := fresh "v" in
  let Hin := fresh "Hin" in
  intros v Hin _; rewrite Hvecs in Hin;
  repeat (apply elem_of_cons in Hin as [-> | Hin]; [simpl; lia |]);
  inversion Hin.

Lemma get_fs_in_range_witness :
  (get_fs (mount_point_list booted_world) (Path true ["sys"; "x"])
   < length (mount_point_list booted_world))%nat
  /\ exists m,
       mount_point_list booted_world
         !! get_fs (mount_point_list booted_world) (Path true ["sys"; "x"])
       = Some m.
Proof.
  apply (get_fs_in_range (mount_point_list booted_world)
           (Path true ["sys"; "x"])).
  vm_compute. discriminate.
Defined.

Lemma get_fs_selects_longest_prefix_witness :
  exists m,
    mount_point_list booted_world
      !! get_fs (mount_point_list booted_world) (Path true ["sys"; "x"])
    = Some m
    /\ mp_vec m `prefix_of` ["sys"; "x"].
Proof.
  destruct (get_fs_selects_longest_prefix (mount_point_list booted_world)
              (Path true ["sys"; "x"]))
    as (m & Hm & Hpre & _).
  - vm_compute. reflexivity.
  - each_segment booted_segments.
  - exists m. split; [exact Hm | exact Hpre].
Defined.

Lemma get_fs_never_selects_shadowed_witness :
  map mp_vec (mount_point_list shadowed_world)
  = [[]; ["sys"]; ["dev"]; ["proc"]; ["sys"]]
  /\ get_fs (mount_point_list shadowed_world) (Path true ["sys"]) <> 4%nat.
Proof.
  split; [vm_compute; reflexivity |].
  destruct (mount_point_list shadowed_world !! 1%nat) as [m |] eqn:Hm;
    [| vm_compute in Hm; discriminate Hm].
  destruct (mount_point_list shadowed_world !! 4%nat) as [m' |] eqn:Hm';
    [| vm_compute in Hm'; discriminate Hm'].
  apply (get_fs_never_selects_shadowed (mount_point_list shadowed_world)
           (Path true ["sys"]) 1 4 m m'); [lia | exact Hm | exact Hm' |].
  vm_compute in Hm, Hm'. injection Hm as <-. injection Hm' as <-.
  reflexivity.
Defined.

Lemma get_fs_unmatched_defaults_to_first_witness :
  map mp_vec (mount_point_list sys_first_world) = [["sys"]; []]
  /\ get_fs (mount_point_list sys_first_world) (Path true ["foo"]) = 0%nat.
Proof.
  split; [vm_compute; reflexivity |].
  apply (get_fs_unmatched_defaults_to_first (mount_point_list sys_first_world)
           (Path true ["foo"])); [reflexivity |].
  intros m Hin Hmatch. apply list_elem_of_lookup_1 in Hin as [i Hi].
  destruct i as [| [| i]]; vm_compute in Hi.
  - injection Hi as <-. vm_compute in Hmatch. discriminate Hmatch.
  - injection Hi as <-. reflexivity.
  - discriminate Hi.
Defined.

Lemma mount_fd_registers_witness :
  exists w',
    mount_fd FAT32 0 1 usb_world = Some (0, w')
    /\ map mp_vec (mount_point_list w')
       = [[]; ["sys"]; ["dev"]; ["proc"]; ["mnt"; "usb"]]
    /\ handles w' = [Path true ["mnt"; "usb"]; Path true ["dev"; "sdb"]].
Proof.
  destruct (mount_fd_registers usb_world FAT32 0 1
              (Path true ["mnt"; "usb"]) (Path true ["dev"; "sdb"])
              (new_fat32 "/mnt/usb/" "/dev/sdb/"))
    as (w' & Hmount & _ & _ & Hhandles & _ & Hvecs).
  - vm_compute. reflexivity.
  - vm_compute. reflexivity.
  - intros Hdup. apply existsb_duplicates in Hdup. vm_compute in Hdup.
    discriminate Hdup.
  - reflexivity.
  - exists w'. split; [exact Hmount |]. split.
    + rewrite Hvecs.
      * vm_compute. reflexivity.
      * repeat constructor; try discriminate; vm_compute;
          intros Hin; repeat (apply elem_of_cons in Hin as [Heq | Hin];
                              [discriminate Heq |]); inversion Hin.
    + rewrite Hhandles. vm_compute. reflexivity.
Defined.

Lemma open_registers_iff_nonnegative_witness :
  exists w',
    open "notes.txt" 1 home_world = Some (0, w')
    /\ handles w' = handles home_world ++ [get_path home_world "notes.txt"].
Proof.
  destruct (open "notes.txt" 1 home_world) as [[r w'] |] eqn:Hopen;
    [| vm_compute in Hopen; discriminate Hopen].
  assert (Hr : r = 0).
  { vm_compute in Hopen. now injection Hopen as <- _. }
  subst r. exists w'. split; [reflexivity |].
  destruct (open_registers_iff_nonnegative home_world w' "notes.txt" 1 0 Hopen)
    as (_ & [Hregistered _] & _).
  apply Hregistered. lia.
Defined.

Lemma transfer_through_descriptor_witness :
  exists w1,
    open "/a" 1 booted_world = Some (0, w1)
    /\ read 0 (chars "....") 4 0 w1 = direct_read "/a" (chars "....") 4 0 w1
    /\ write 0 (chars "data") 4 0 w1 = direct_write "/a" (chars "data") 4 0 w1.
Proof.
  destruct (open "/a" 1 booted_world) as [[r w1] |] eqn:Hopen;
    [| vm_compute in Hopen; discriminate Hopen].
  assert (Hr : r = 0).
  { vm_compute in Hopen. now injection Hopen as <- _. }
  subst r. exists w1. split; [reflexivity |].
  destruct (transfer_through_descriptor booted_world w1 "/a" 1 0
              (chars "....") 4 0 Hopen) as [Hread _]; [lia | reflexivity |].
  destruct (transfer_through_descriptor booted_world w1 "/a" 1 0
              (chars "data") 4 0 Hopen) as [_ Hwrite]; [lia | reflexivity |].
  split; [exact Hread | exact Hwrite].
Defined.

Lemma invalid_descriptor_rejected_witness :
  has_handle booted_world 3 = false
  /\ truncate 3 0 booted_world
     = Some (- ERROR_INVALID_FILE_DESCRIPTOR, booted_world)
  /\ mount_fd FAT32 3 0 booted_world
     = Some (- ERROR_INVALID_FILE_DESCRIPTOR, booted_world).
Proof.
  split; [reflexivity |].
  destruct (invalid_descriptor_rejected booted_world 3 0
              (StatInfo 0 0 0 0 0) [] 0 0 0 FAT32)
    as (_ & _ & _ & _ & Htruncate & _ & Hmount & _); [reflexivity |].
  split; [exact Htruncate | exact Hmount].
Defined.

Lemma transfers_reject_empty_path_witness :
  handles files_world !! 2%nat = Some (Path true [])
  /\ read 2 (chars "....") 4 0 files_world
     = Some ((- ERROR_INVALID_FILE_PATH, chars "...."), files_world)
  /\ stat 2 (StatInfo 0 0 7 8 9) files_world
     = Some ((0, StatInfo 4096 STAT_FLAG_DIRECTORY 7 8 9), files_world).
Proof.
  assert (Hfd : handles files_world !! 2%nat = Some (Path true []))
    by (vm_compute; reflexivity).
  split; [exact Hfd |].
  destruct (transfers_reject_empty_path files_world 2 (Path true [])
              (StatInfo 0 0 7 8 9) (chars "....") 4 0 0 Hfd eq_refl)
    as (Hread & _ & _ & _ & Hstat).
  split; [exact Hread |]. apply Hstat; [reflexivity |].
  apply (list_elem_of_lookup_2 _ 0%nat). vm_compute. reflexivity.
Defined.

Lemma open_mount_point_registers_witness :
  open "/sys/" 1 booted_world
  = Some (register_new_handle (Path true ["sys"]) booted_world).
Proof.
  apply (open_mount_point_registers booted_world
           (make_mounted_fs SYSFS "none" "/sys/" (fs_init (new_sysfs "/sys/")))
           1 "sys/").
  - apply (list_elem_of_lookup_2 _ 1%nat). vm_compute. reflexivity.
  - reflexivity.
  - reflexivity.
  - each_segment booted_segments.
Defined.

Lemma listing_errors_keep_buffer_witness :
  mounts (chars "..........") 10 booted_world
  = (- ERROR_BUFFER_SMALL, chars "..........").
Proof.
  apply (listing_errors_keep_buffer booted_world 0 (chars "..........") 10);
    vm_compute; reflexivity.
Defined.

Lemma status_results_never_positive_witness :
  exists r info' w',
    stat 0 (StatInfo 0 0 0 0 0) files_world = Some ((r, info'), w')
    /\ r <= 0.
Proof.
  destruct (stat 0 (StatInfo 0 0 0 0 0) files_world)
    as [[[r info'] w'] |] eqn:Hstat;
    [| vm_compute in Hstat; discriminate Hstat].
  exists r, info', w'. split; [reflexivity |].
  destruct (status_results_never_positive files_world) as (Hresult & _).
  exact (Hresult _ _ _ _ _ Hstat).
Defined.

Lemma calls_keep_mounts_witness :
  exists r w',
    run (DoRm "/nope") booted_world = Some (r, w')
    /\ same_registry booted_world w'
    /\ handles w' = handles booted_world.
Proof.
  destruct (run (DoRm "/nope") booted_world) as [[r w'] |] eqn:Hrun;
    [| vm_compute in Hrun; discriminate Hrun].
  exists r, w'. split; [reflexivity |].
  destruct (calls_keep_mounts booted_world) as (Hcalls & _).
  destruct (Hcalls (DoRm "/nope") r w' Hrun) as (_ & _ & _ & Hsame & Hkeep).
  split; [apply Hsame | apply Hkeep]; discriminate.
Defined.

Lemma booted_sequences_keep_invariant_witness :
  exists w0 w',
    init boot_world = Some w0
    /\ run_all session w0 = Some w'
    /\ system_invariant w'
    /\ length (mount_point_list w') = 5%nat.
Proof.
  destruct (booted_sequences_keep_invariant boot_world session)
    as (w0 & w' & Hinit & Hrun & Hinv & _).
  - reflexivity.
  - constructor.
  - constructor.
  - intros w0 Hinit. vm_compute in Hinit. injection Hinit as <-.
    unfold session. cbn [run_all_in_range].
    repeat (split;
            [vm_compute; reflexivity
            | intros r w' Hrun; vm_compute in Hrun; injection Hrun as <- <-]).
    exact I.
  - exists w0, w'. split; [exact Hinit |]. split; [exact Hrun |].
    split; [exact Hinv |].
    vm_compute in Hinit. injection Hinit as <-.
    vm_compute in Hrun. injection Hrun as <-. reflexivity.
Defined.

End SamplesMore.
